(** * HaloPotential: analytic gravitational potentials (power law, NFW,
      NFW + disk galaxy)

    Shallow embedding of [HaloPotential.py].

    Numbers.  numpy float64 values and astropy quantities are modelled by
    the real numbers [R]: rounding is abstracted away and every quantity is
    expressed in one coherent system of units, so that [.to(unit)] and
    [.value] are the identity.  The special values inf and nan have no
    counterpart in [R]; the results on the NFW halo carry the positivity
    hypotheses ([NFW.physical], [rho_scale > 0], [r > 0]) under which no
    division by zero, logarithm of a non-positive number or power of a
    non-positive base occurs, so that the real-valued model follows the
    code.

    Operators.
      [x ** y]   (float exponent)   [Rpower x y]   (positive base)
      [x ** 2], [x ** 3]            [x ^ 2], [x ^ 3]
      [x ** 0.5]                    [sqrt x]
      [x ** -1.]                    [/ x]
      [ln]  (numpy.log)             [ln]
      [np.e]                        [exp 1]

    Arrays.  A numpy array is a [list R]; arithmetic on arrays is
    elementwise, so a method applied to an array is [map] of the method on
    scalars.  Indexing out of range raises [IndexError], modelled by [None].

    Grids.  Rounding is not abstracted where it decides how many radii a
    grid has: [arange] takes the ceiling of a float64 quotient, and one unit
    in the last place moves that ceiling when the real quotient is an
    integer.  The computed quotient is a parameter [fl : np.rounding] of
    every definition that builds a grid, constrained to lie within
    [np.tol * (1 + |q|)] of the real quotient [q]; the results hold for
    every such rounding.

    Methods.  A method receives [self].  Calls made through [self] are
    resolved on the dynamic class of the object: where a subclass overrides
    the callee, the inherited caller takes the resolved callee as an
    argument (section [Virtual] of module [NFW]). *)

From Stdlib Require Import Reals Lra Lia List ZArith Bool.
Import ListNotations.

Local Open Scope R_scope.

(** ** Python helpers *)

(** A keyword argument with a default value. *)
Definition kwarg (default : R) (given : option R) : R :=
  match given with
  | Some v => v
  | None => default
  end.

(** ** numpy *)

Module np.

(** Smallest integer at or above [x]. *)
Definition ceil (x : R) : Z := (1 - up (- x))%Z.

(** Bound on the rounding that decides the length of a grid. *)
Definition tol : R := / 2 ^ 40.

(** The float64 value of [(stop - start)/step] that [arange] takes the
    ceiling of.  The operands reach [arange] rounded and the subtraction and
    the division round again, so the computed quotient is not the real one:
    it is only known up to a few units in the last place, bounded here by
    [tol * (1 + |q|)] around the real quotient [q].  When [q] is an integer
    the length of the grid is therefore [q] or [q + 1], and [stop] itself can
    be the last point of the grid. *)
Record rounding : Type := {
  quotient : R -> R -> R -> R;
  quotient_close :
    forall start stop step : R,
      Rabs (quotient start stop step - (stop - start) / step)
      <= tol * (1 + Rabs ((stop - start) / step))
}.

(** [arange(start, stop, step)]: the grid [start, start+step, ...] of
    [ceil(q)] points, [q] the computed quotient [(stop - start)/step]. *)
Definition arange (fl : rounding) (start stop step : R) : list R :=
  map (fun i : nat => start + INR i * step)
      (seq 0 (Z.to_nat (ceil (quotient fl start stop step)))).

(** The rounding that makes no error: the quotient of operands that are
    exact and divide exactly. *)
Definition ideal : rounding.
Proof.
  refine {| quotient := fun start stop step => (stop - start) / step |}.
  intros start stop step.
  replace ((stop - start) / step - (stop - start) / step) with 0 by ring.
  rewrite Rabs_R0.
  apply Rmult_le_pos.
  - unfold tol. apply Rlt_le, Rinv_0_lt_compat, pow_lt. lra.
  - pose proof (Rabs_pos ((stop - start) / step)). lra.
Defined.

(** [a.sum()] *)
Definition sum (a : list R) : R := fold_right Rplus 0 a.

(** [-a] on an array *)
Definition neg (a : list R) : list R := map Ropp a.

(** The loop of [searchsorted(a, v)] (side left) for one key: bisection
    between [min_idx] and [max_idx]; [fuel] bounds the number of rounds. *)
Fixpoint binsearch (fuel : nat) (a : list R) (v : R) (min_idx max_idx : nat)
  : nat :=
  match fuel with
  | O => min_idx
  | S fuel' =>
      if (min_idx <? max_idx)%nat then
        let mid_idx := (min_idx + Nat.div2 (max_idx - min_idx))%nat in
        if Rlt_dec (nth mid_idx a 0) v
        then binsearch fuel' a v (S mid_idx) max_idx
        else binsearch fuel' a v min_idx mid_idx
      else min_idx
  end.

(** [searchsorted(a, v)]: the interval halves at each round, so [length a]
    rounds are enough (lemma [binsearch_fuel] below). *)
Definition searchsorted (a : list R) (v : R) : nat :=
  binsearch (length a) a v 0 (length a).

(** A value handed to a method: a scalar or a one-dimensional array. *)
Inductive ndarray : Type :=
| Scalar (x : R)
| Array (xs : list R).

(** Elementwise application. *)
Definition broadcast (f : R -> R) (v : ndarray) : ndarray :=
  match v with
  | Scalar x => Scalar (f x)
  | Array xs => Array (map f xs)
  end.

(** [v[i]]: a scalar cannot be indexed, an array raises out of range. *)
Definition getitem (v : ndarray) (i : nat) : option R :=
  match v with
  | Scalar _ => None
  | Array xs => nth_error xs i
  end.

End np.

(** ** Module-level collaborators *)

(** [astropy.constants] and [astropy.cosmology.Planck15], as far as the
    module reads them. *)
Record Cosmology : Type := {
  G : R;                        (* cons.G *)
  H0 : R;                       (* cosmo.H0.value *)
  Om : R -> R;                  (* cosmo.Om(z) *)
  critical_density : R -> R     (* cosmo.critical_density(z) *)
}.

Definition h0 (cosmo : Cosmology) : R := H0 cosmo / 100.

(** hydrogen mass fraction *)
Definition X : R := 75 / 100.

(** mean molecular weight *)
Definition mu : R := 4 / (3 + 5 * X).

(** ** class PowerLaw *)

Module PowerLaw.

Record t : Type := mk {
  m : R;
  vc_Rvir : R;
  Rvir : R;
  R_phi0 : R
}.

Definition init (m vc_Rvir Rvir : R) (R_phi0_to_Rvir : option R) : t :=
  {| m := m;
     vc_Rvir := vc_Rvir;
     Rvir := Rvir;
     R_phi0 := kwarg 10 R_phi0_to_Rvir * Rvir |}.

Definition vc (self : t) (r : R) : R :=
  vc_Rvir self * Rpower (r / Rvir self) (m self).

Definition Phi (self : t) (r : R) : R :=
  if Req_dec_T (m self) 0
  then - vc_Rvir self ^ 2 * ln (R_phi0 self / r)
  else - vc_Rvir self ^ 2 / (2 * m self)
       * (Rpower (R_phi0 self / Rvir self) (2 * m self)
          - Rpower (r / Rvir self) (2 * m self)).

Definition dlnvc_dlnR (self : t) (r : R) : R := m self.

End PowerLaw.

(** ** class PowerLaw_with_AngularMomentum *)

Module PowerLaw_with_AngularMomentum.

Record t : Type := mk {
  base : PowerLaw.t;
  Rcirc : R
}.

Definition init (m vc_Rvir Rvir Rcirc : R) : t :=
  {| base := PowerLaw.init m vc_Rvir Rvir None; Rcirc := Rcirc |}.

Definition vc (self : t) (r : R) : R :=
  let vc := PowerLaw.vc (base self) r in
  vc * sqrt (1 - (Rcirc self / r) ^ 2).

Definition Phi (self : t) (r : R) : R := PowerLaw.Phi (base self) r.

Definition dlnvc_dlnR (self : t) (r : R) : R :=
  let dlnvc_dlnR := PowerLaw.dlnvc_dlnR (base self) r in
  dlnvc_dlnR + / ((r / Rcirc self) ^ 2 - 1).

End PowerLaw_with_AngularMomentum.

(** ** class NFW *)

Module NFW.

Record t : Type := mk {
  _fdr : R;
  Mvir : R;
  z : R;
  cvir : R;
  dr : R;
  rho_scale : R
}.

Section Methods.

Context (fl : np.rounding) (cosmo : Cosmology).

(** Bryan & Norman 98 *)
Definition Delta_c (self : t) : R :=
  let x := Om cosmo (z self) - 1 in
  18 * PI ^ 2 + 82 * x - 39 * x ^ 2.

Definition rvir (self : t) : R :=
  Rpower (Mvir self
          / (4 / 3 * PI * Delta_c self * critical_density cosmo (z self)))
         (1 / 3).

Definition r_scale (self : t) : R := rvir self / cvir self.

Definition rho2rho_scale (self : t) (r : R) : R :=
  4 / ((r / r_scale self) * (1 + r / r_scale self) ^ 2).

Definition rho (self : t) (r : R) : R :=
  rho_scale self * rho2rho_scale self r.

Definition enclosedMass (self : t) (r : R) : R :=
  16 * PI * rho_scale self * r_scale self ^ 3
  * (ln (1 + r / r_scale self) - / (r_scale self / r + 1)).

Definition v_vir (self : t) : R :=
  sqrt (G cosmo * Mvir self / rvir self).

(** The radial grid and the integrand of the constructor. *)
Definition init_rs (self : t) : list R :=
  np.arange fl (dr self) (rvir self) (dr self).

Definition init_integrand (self : t) (rs : list R) : list R :=
  map (fun r => 4 * PI * r ^ 2 * dr self * rho2rho_scale self r) rs.

(** [__init__]: the attributes are assigned one after the other; [dr] and
    [rho_scale] hold 0 until their assignment, and no method reads them
    before. *)
Definition init (Mvir z : R) (cvir : option R) (_fdr : option R) : t :=
  let _fdr := kwarg 100 _fdr in
  let cvir :=
    match cvir with
    | None => 785 / 100 * Rpower (Mvir / (2 * 10 ^ 12) / 1 * h0 cosmo)
                                 (- (81 / 1000))
              * Rpower (1 + z) (- (71 / 100))     (* Duffy et al. 2008 *)
    | Some cvir => cvir
    end in
  let self := {| _fdr := _fdr; Mvir := Mvir; z := z; cvir := cvir;
                 dr := 0; rho_scale := 0 |} in
  let self := {| _fdr := _fdr; Mvir := Mvir; z := z; cvir := cvir;
                 dr := r_scale self / _fdr; rho_scale := 0 |} in
  let rs := init_rs self in
  {| _fdr := _fdr; Mvir := Mvir; z := z; cvir := cvir;
     dr := dr self;
     rho_scale := Mvir / np.sum (init_integrand self rs) |}.

(** The discretized mass integral of the profile with the stored
    [rho_scale], on the grid of the constructor:
    the sum of [4 pi r^2 * dr * rho_scale * f(r)]. *)
Definition normalization_sum (self : t) : R :=
  np.sum (map (fun r => 4 * PI * r ^ 2 * dr self * rho_scale self
                        * rho2rho_scale self r)
              (init_rs self)).

(** Inputs for which [rvir] and [r_scale] are positive lengths, computed
    without a special value. *)
Definition physical (self : t) : Prop :=
  0 < Mvir self /\ 0 < cvir self
  /\ 0 < critical_density cosmo (z self) /\ 0 < Delta_c self.

(** The grid of the overdensity-radius search. *)
Definition search_rs (self : t) : list R :=
  np.arange fl (dr self) (2 * rvir self) (dr self).

(** Methods whose body calls [self.enclosedMass] or
    [self.mean_enclosed_rho2rhocrit]: the callee is the one of the object's
    class. *)
Section Virtual.

Variable self_enclosedMass : R -> R.
Variable self_mean_enclosed_rho2rhocrit : R -> R.

Definition vc_ (self : t) (r : R) : R :=
  let Ms := self_enclosedMass r in
  sqrt (G cosmo * Ms / r).

Definition r200_ (self : t) (delta : option R) : option R :=
  let delta := kwarg 200 delta in
  let rs := np.arange fl (dr self) (2 * rvir self) (dr self) in
  let mean_rho2rhocrit := map self_mean_enclosed_rho2rhocrit rs in
  nth_error rs (np.searchsorted (np.neg mean_rho2rhocrit) (- delta)).

Definition r500_ (self : t) (delta : option R) : option R :=
  let delta := kwarg 500 delta in
  let rs := np.arange fl (dr self) (2 * rvir self) (dr self) in
  let mean_rho2rhocrit := map self_mean_enclosed_rho2rhocrit rs in
  nth_error rs (np.searchsorted (np.neg mean_rho2rhocrit) (- delta)).

Definition r200m_ (self : t) (delta : option R) : option R :=
  let delta := kwarg 200 delta in
  let rs := np.arange fl (dr self) (2 * rvir self) (dr self) in
  let mean_rho2rhocrit := map self_mean_enclosed_rho2rhocrit rs in
  nth_error rs (np.searchsorted (np.neg mean_rho2rhocrit)
                                (- delta * Om cosmo (z self))).

Definition r500m_ (self : t) (delta : option R) : option R :=
  let delta := kwarg 500 delta in
  let rs := np.arange fl (dr self) (2 * rvir self) (dr self) in
  let mean_rho2rhocrit := map self_mean_enclosed_rho2rhocrit rs in
  nth_error rs (np.searchsorted (np.neg mean_rho2rhocrit)
                                (- delta * Om cosmo (z self))).


Definition g_ (self : t) (r : R) : R :=
  let Ms := self_enclosedMass r in
  G cosmo * Ms / r ^ 2.

Definition t_ff_ (self : t) (r : R) : R :=
  sqrt 2 * r / vc_ self r.

(** [T200]: [mp] is the proton mass [cons.m_p] of the module; the call
    [self.r200()] takes the default [delta] and its error propagates. *)
Definition T200_ (mp : R) (self : t) : option R :=
  option_map (fun r200 => 1 / 2 * mu * mp * vc_ self r200 ^ 2)
             (r200_ self None).

End Virtual.

(** On an object of class [NFW] itself. *)
Definition vc (self : t) : R -> R := vc_ (enclosedMass self) self.

Definition mean_enclosed_rho2rhocrit (self : t) (r : R) : R :=
  let Ms := enclosedMass self r in
  Ms / (4 / 3 * PI * r ^ 3) / critical_density cosmo (z self).

Definition r200 (self : t) : option R -> option R :=
  r200_ (mean_enclosed_rho2rhocrit self) self.

Definition r500 (self : t) : option R -> option R :=
  r500_ (mean_enclosed_rho2rhocrit self) self.

Definition r200m (self : t) : option R -> option R :=
  r200m_ (mean_enclosed_rho2rhocrit self) self.

Definition r500m (self : t) : option R -> option R :=
  r500m_ (mean_enclosed_rho2rhocrit self) self.

Definition M200 (self : t) (delta : option R) : option R :=
  let delta := kwarg 200 delta in
  option_map (enclosedMass self) (r200 self (Some delta)).

Definition M200m (self : t) (delta : option R) : option R :=
  let delta := kwarg 200 delta in
  option_map (enclosedMass self) (r200m self (Some delta)).

Definition g (self : t) : R -> R := g_ (enclosedMass self) self.

Definition t_ff (self : t) : R -> R := t_ff_ (enclosedMass self) self.


Definition T200 (mp : R) (self : t) : option R :=
  T200_ (enclosedMass self) (mean_enclosed_rho2rhocrit self) mp self.

Definition dlnvc_dlnR (self : t) (r : R) : R :=
  let A := r_scale self + r in
  let B := ln (A / r_scale self) in
  1 / 2 * (- r ^ 2 + A * (- r + A * B)) / (A * (r - A * B)).

Definition Phi (self : t) (r : R) : R :=
  - (16 * PI * G cosmo * rho_scale self * r_scale self ^ 3 / r
     * ln (1 + r / r_scale self)).

End Methods.

End NFW.

(** ** class NFW_withGalaxy *)

Module NFW_withGalaxy.

Record t : Type := mk {
  halo : NFW.t;       (* the attributes set by [super().__init__] *)
  Mgalaxy : R;
  Rd : R
}.

(** One line written to standard output: the printed values. *)
Definition line : Type := list R.

(** Outcome of a method that may print and may raise. *)
Inductive outcome (A : Type) : Type :=
| Raises
| Returns (stdout : list line) (value : A).

Arguments Raises {A}.
Arguments Returns {A} stdout value.

Section Methods.

Context (fl : np.rounding) (cosmo : Cosmology).

Definition init (Mvir z : R) (cvir _fdr Mgalaxy scale_length : option R) : t :=
  {| halo := NFW.init fl cosmo Mvir z cvir _fdr;
     Mgalaxy := kwarg (6 * 10 ^ 10) Mgalaxy;
     Rd := kwarg (25 / 10) scale_length |}.

(** disk galaxy mass distribution *)
Definition enclosedMass_galaxy (self : t) (r : R) : R :=
  let factor :=
    1 - Rpower (exp 1) (- (r / Rd self)) * (Rd self + r) / Rd self in
  factor * Mgalaxy self.

Definition enclosedMass (self : t) (r : R) : R :=
  NFW.enclosedMass cosmo (halo self) r + enclosedMass_galaxy self r.

(** does not include galaxy *)
Definition mean_enclosed_rho2rhocrit (self : t) (r : R) : R :=
  let Ms := NFW.enclosedMass cosmo (halo self) r in
  Ms / (4 / 3 * PI * r ^ 3) / critical_density cosmo (NFW.z (halo self)).

(** Inherited methods, with the calls through [self] bound to this class. *)
Definition vc (self : t) : R -> R :=
  NFW.vc_ cosmo (enclosedMass self) (halo self).

Definition r200 (self : t) : option R -> option R :=
  NFW.r200_ fl cosmo (mean_enclosed_rho2rhocrit self) (halo self).

Definition r500 (self : t) : option R -> option R :=
  NFW.r500_ fl cosmo (mean_enclosed_rho2rhocrit self) (halo self).

Definition r200m (self : t) : option R -> option R :=
  NFW.r200m_ fl cosmo (mean_enclosed_rho2rhocrit self) (halo self).

Definition r500m (self : t) : option R -> option R :=
  NFW.r500m_ fl cosmo (mean_enclosed_rho2rhocrit self) (halo self).

Definition g (self : t) : R -> R :=
  NFW.g_ cosmo (enclosedMass self) (halo self).

Definition t_ff (self : t) : R -> R :=
  NFW.t_ff_ cosmo (enclosedMass self) (halo self).

Definition T200 (mp : R) (self : t) : option R :=
  NFW.T200_ fl cosmo (enclosedMass self) (mean_enclosed_rho2rhocrit self) mp
            (halo self).

(** does not include galaxy *)
Definition M200 (self : t) (delta : option R) : option R :=
  let delta := kwarg 200 delta in
  option_map (NFW.enclosedMass cosmo (halo self)) (r200 self (Some delta)).

(** does not include galaxy *)
Definition M200m (self : t) (delta : option R) : option R :=
  let delta := kwarg 200 delta in
  option_map (NFW.enclosedMass cosmo (halo self)) (r200m self (Some delta)).

Definition Phi (self : t) (r : R) : R :=
  NFW.Phi cosmo (halo self) r
  + G cosmo * Mgalaxy self * (Rpower (exp 1) (- (r / Rd self)) - 1) / r.

(** The intermediate quantities of [dlnvc_dlnR] at one radius. *)
Definition vc2_halo (self : t) (r : R) : R :=
  G cosmo * NFW.enclosedMass cosmo (halo self) r / r.

Definition AA (self : t) (r : R) : R := vc2_halo self r / vc self r ^ 2.

Definition A (self : t) (r : R) : R := NFW.dlnvc_dlnR cosmo (halo self) r.

Definition dvc2_glx_dr (self : t) (r : R) : R :=
  G cosmo * Mgalaxy self / r / r
  * (Rpower (exp 1) (- r / Rd self)
     * (r ^ 2 + Rd self ^ 2 + r * Rd self) / Rd self ^ 2 - 1).

Definition vc2_galaxy (self : t) (r : R) : R :=
  G cosmo * enclosedMass_galaxy self r / r.

Definition B (self : t) (r : R) : R :=
  1 / 2 * r * dvc2_glx_dr self r / vc2_galaxy self r.

Definition BB (self : t) (r : R) : R := vc2_galaxy self r / vc self r ^ 2.

(** [dlnvc_dlnR]: every intermediate is computed elementwise from [r]; the
    [print] call reads element 20 of six of them before the result is
    returned. *)
Definition dlnvc_dlnR (self : t) (r : np.ndarray) : outcome np.ndarray :=
  let vc2_halo_ := np.broadcast (vc2_halo self) r in
  let AA_ := np.broadcast (AA self) r in
  let A_ := np.broadcast (A self) r in
  let vc2_galaxy_ := np.broadcast (vc2_galaxy self) r in
  let B_ := np.broadcast (B self) r in
  let BB_ := np.broadcast (BB self) r in
  match np.getitem vc2_halo_ 20, np.getitem AA_ 20, np.getitem A_ 20,
        np.getitem vc2_galaxy_ 20, np.getitem BB_ 20, np.getitem B_ 20 with
  | Some p1, Some p2, Some p3, Some p4, Some p5, Some p6 =>
      Returns [[sqrt p1; p2; p3; sqrt p4; p5; p6]]
              (np.broadcast
                 (fun r => A self r * AA self r + B self r * BB self r) r)
  | _, _, _, _, _, _ => Raises
  end.

End Methods.

End NFW_withGalaxy.

(** ** Reference definitions and sample inputs *)

(** The first radius of a grid at which [f] is at or below [threshold]. *)
Definition first_at_or_below (f : R -> R) (threshold : R) (rs : list R)
  : option R :=
  find (fun r => if Rle_dec (f r) threshold then true else false) rs.

(** Planck15 at redshift 0 in units of Msun, kpc and km/s, with rounded
    values: [Om(0) = 0.3075], [H0 = 67.74], a critical density of
    127.3 Msun/kpc^3 and [G = 4.3009e-6]. *)
Definition Planck15_z0 : Cosmology :=
  {| G := 43009 / 10000000000;
     H0 := 6774 / 100;
     Om := fun _ => 3075 / 10000;
     critical_density := fun _ => 1273 / 10 |}.

(** A halo of 1e12 Msun at redshift 0 with concentration 2 and one grid
    step per scale radius.  Halving [rvir] is exact in float64, so the
    quotients behind its grids (1 for the constructor, 3 for the search)
    carry no rounding. *)
Definition coarse_halo : NFW.t :=
  NFW.init np.ideal Planck15_z0 1000000000000 0 (Some 2) (Some 1).

(** The same halo with concentration 1: [dr] is [rvir], the quotient is
    0 without rounding, and the grid of the constructor is empty. *)
Definition degenerate_halo : NFW.t :=
  NFW.init np.ideal Planck15_z0 1000000000000 0 (Some 1) (Some 1).

(** A power law of slope 1/10 with 200 km/s at 250 kpc, and the same with a
    circularization radius of 10 kpc. *)
Definition sample_power_law : PowerLaw.t :=
  PowerLaw.init (1 / 10) 200 250 None.

Definition sample_power_law_AM : PowerLaw_with_AngularMomentum.t :=
  PowerLaw_with_AngularMomentum.init (1 / 10) 200 250 10.

(** The coarse halo with the default galaxy. *)
Definition coarse_halo_with_galaxy : NFW_withGalaxy.t :=
  NFW_withGalaxy.init np.ideal Planck15_z0 1000000000000 0 (Some 2) (Some 1)
                      None None.

(** * Properties *)

(** ** numpy: ceil and arange *)

Module np_facts.

Lemma ceil_bounds (x : R) : IZR (np.ceil x) - 1 < x <= IZR (np.ceil x).
Proof.
  unfold np.ceil. rewrite minus_IZR.
  destruct (archimed (- x)) as [Hgt Hle]. lra.
Qed.

Lemma ceil_nonpos (x : R) : x <= 0 -> (np.ceil x <= 0)%Z.
Proof.
  intros Hx. destruct (ceil_bounds x) as [Hlo _].
  apply Z.lt_succ_r. apply lt_IZR. rewrite succ_IZR. lra.
Qed.

Lemma ceil_pos (x : R) : 0 < x -> (0 < np.ceil x)%Z.
Proof.
  intros Hx. destruct (ceil_bounds x) as [_ Hhi].
  apply lt_IZR. lra.
Qed.

Lemma ceil_IZR (k : Z) : np.ceil (IZR k) = k.
Proof.
  destruct (ceil_bounds (IZR k)) as [Hlo Hhi].
  apply Z.le_antisymm.
  - apply Z.lt_succ_r. apply lt_IZR. rewrite succ_IZR. lra.
  - apply le_IZR. exact Hhi.
Qed.

Lemma tol_bounds : 0 < np.tol < / 4.
Proof.
  unfold np.tol. split.
  - apply Rinv_0_lt_compat, pow_lt. lra.
  - apply Rinv_lt_contravar; [|simpl; lra].
    apply Rmult_lt_0_compat; [lra|apply pow_lt; lra].
Qed.

Lemma quotient_ideal (start stop step : R) :
  np.quotient np.ideal start stop step = (stop - start) / step.
Proof. reflexivity. Qed.

Section Rounded.

Variable fl : np.rounding.

(** The computed quotient lies within the rounding bound of the real one. *)
Lemma quotient_bounds (start stop step : R) :
  let q := (stop - start) / step in
  q - np.tol * (1 + Rabs q) <= np.quotient fl start stop step
  <= q + np.tol * (1 + Rabs q).
Proof.
  intros q. pose proof (np.quotient_close fl start stop step) as Hc.
  fold q in Hc.
  pose proof (Rle_abs (np.quotient fl start stop step - q)) as Hup.
  pose proof (Rle_abs (- (np.quotient fl start stop step - q))) as Hlo.
  rewrite Rabs_Ropp in Hlo. lra.
Qed.

Lemma arange_length (start stop step : R) :
  length (np.arange fl start stop step)
  = Z.to_nat (np.ceil (np.quotient fl start stop step)).
Proof. unfold np.arange. now rewrite length_map, length_seq. Qed.

Lemma arange_nth_error (start stop step : R) (i : nat) :
  (i < length (np.arange fl start stop step))%nat ->
  nth_error (np.arange fl start stop step) i = Some (start + INR i * step).
Proof.
  intros Hi. rewrite arange_length in Hi. unfold np.arange.
  rewrite nth_error_map, nth_error_seq.
  apply Nat.ltb_lt in Hi. now rewrite Hi.
Qed.

Lemma arange_In (start stop step r : R) :
  In r (np.arange fl start stop step) ->
  exists i : nat,
    (i < length (np.arange fl start stop step))%nat
    /\ r = start + INR i * step.
Proof.
  intros Hin. rewrite arange_length. unfold np.arange in Hin.
  apply in_map_iff in Hin. destruct Hin as [i [Hr Hi]].
  apply in_seq in Hi. exists i. split; [lia | now symmetry].
Qed.

Lemma arange_empty (start stop step : R) :
  np.quotient fl start stop step <= 0 -> np.arange fl start stop step = [].
Proof.
  intros Hle. unfold np.arange.
  pose proof (ceil_nonpos _ Hle) as Hc.
  replace (Z.to_nat _) with 0%nat by lia. reflexivity.
Qed.

Lemma arange_nonempty (start stop step : R) :
  0 < np.quotient fl start stop step -> np.arange fl start stop step <> [].
Proof.
  intros Hpos Hnil. apply (f_equal (@length R)) in Hnil.
  rewrite arange_length in Hnil. simpl in Hnil.
  pose proof (ceil_pos _ Hpos). lia.
Qed.

(** A grid with a radius has a positive computed quotient. *)
Lemma arange_In_quotient_pos (start stop step r : R) :
  In r (np.arange fl start stop step) ->
  0 < np.quotient fl start stop step.
Proof.
  intros Hin. destruct (Rlt_le_dec 0 (np.quotient fl start stop step))
    as [Hpos|Hle]; [exact Hpos|].
  rewrite (arange_empty _ _ _ Hle) in Hin. destruct Hin.
Qed.

(** A grid that starts at its own step holds positive radii. *)
Lemma arange_grid_pos (stop step r : R) :
  0 < step -> In r (np.arange fl step stop step) -> 0 < r.
Proof.
  intros Hstep Hin. apply arange_In in Hin. destruct Hin as [i [_ ->]].
  pose proof (pos_INR i). nra.
Qed.

End Rounded.

Lemma sum_pos (a : list R) :
  a <> [] -> (forall x, In x a -> 0 < x) -> 0 < np.sum a.
Proof.
  induction a as [|x a IH]; intros Hne Hall; [congruence|].
  simpl. pose proof (Hall x (or_introl eq_refl)) as Hx.
  destruct a as [|y a'].
  - simpl. lra.
  - assert (0 < np.sum (y :: a')).
    { apply IH; [discriminate|]. intros w Hw. apply Hall. now right. }
    lra.
Qed.

Lemma sum_scal (c : R) (f : R -> R) (rs : list R) :
  np.sum (map (fun r => c * f r) rs) = c * np.sum (map f rs).
Proof.
  induction rs as [|r rs IH]; simpl; [ring|]. rewrite IH. ring.
Qed.

End np_facts.

(** ** numpy: searchsorted *)

Module searchsorted_facts.

Lemma div2_lt (d : nat) : (0 < d)%nat -> (Nat.div2 d < d)%nat.
Proof. intros Hd. apply Nat.lt_div2. exact Hd. Qed.

(** The bisection returns an index of the interval it is given, whatever
    the array holds, as soon as the fuel covers the interval. *)
Lemma binsearch_range (fuel : nat) (a : list R) (v : R) :
  forall lo hi : nat,
    (lo <= hi)%nat -> (lo <= np.binsearch fuel a v lo hi <= hi)%nat.
Proof.
  induction fuel as [|fuel IH]; intros lo hi Hle; cbn [np.binsearch]; [lia|].
  destruct (Nat.ltb_spec lo hi) as [Hlt|Hge]; [|lia].
  pose proof (div2_lt (hi - lo) ltac:(lia)) as Hd.
  set (d := Nat.div2 (hi - lo)) in *. clearbody d.
  set (mid := (lo + d)%nat) in *.
  assert (Hmid : (lo <= mid < hi)%nat) by (subst mid; lia).
  clearbody mid.
  destruct (Rlt_dec _ v).
  - specialize (IH (S mid) hi ltac:(lia)). lia.
  - specialize (IH lo mid ltac:(lia)). lia.
Qed.

(** Once the fuel covers the interval, more fuel does not change the
    result: the loop has stopped. *)
Lemma binsearch_fuel (a : list R) (v : R) :
  forall fuel fuel' lo hi : nat,
    (hi - lo <= fuel)%nat -> (hi - lo <= fuel')%nat ->
    np.binsearch fuel a v lo hi = np.binsearch fuel' a v lo hi.
Proof.
  induction fuel as [|fuel IH]; intros fuel' lo hi Hf Hf'.
  - destruct fuel' as [|fuel']; cbn [np.binsearch]; [reflexivity|].
    destruct (Nat.ltb_spec lo hi) as [Hlt|Hge]; [lia|reflexivity].
  - cbn [np.binsearch].
    destruct (Nat.ltb_spec lo hi) as [Hlt|Hge].
    + destruct fuel' as [|fuel']; [lia|]. cbn [np.binsearch].
      destruct (Nat.ltb_spec lo hi) as [_|Hge]; [|lia].
      pose proof (div2_lt (hi - lo) ltac:(lia)) as Hd.
      set (d := Nat.div2 (hi - lo)) in *. clearbody d.
      destruct (Rlt_dec (nth (lo + d) a 0) v); apply IH; lia.
    + destruct fuel' as [|fuel']; cbn [np.binsearch]; [reflexivity|].
      destruct (Nat.ltb_spec lo hi) as [Hlt|_]; [lia|reflexivity].
Qed.

(** On an array whose entries below [v] form a prefix (which is what
    ascending order gives), the bisection stops at the end of that prefix. *)
Lemma binsearch_prefix (a : list R) (v : R) :
  (forall i j : nat,
      (i <= j < length a)%nat -> nth j a 0 < v -> nth i a 0 < v) ->
  forall (fuel lo hi : nat),
    (hi - lo <= fuel)%nat ->
    (lo <= hi <= length a)%nat ->
    (forall i, (i < lo)%nat -> nth i a 0 < v) ->
    (forall i, (hi <= i < length a)%nat -> ~ nth i a 0 < v) ->
    let k := np.binsearch fuel a v lo hi in
    (forall i, (i < k)%nat -> nth i a 0 < v)
    /\ (forall i, (k <= i < length a)%nat -> ~ nth i a 0 < v).
Proof.
  intros Hmono. induction fuel as [|fuel IH]; intros lo hi Hfuel Hrange Hlo Hhi.
  - cbn [np.binsearch]. replace hi with lo in Hhi by lia. now split.
  - cbn [np.binsearch]. destruct (Nat.ltb_spec lo hi) as [Hlt|Hge].
    + pose proof (div2_lt (hi - lo) ltac:(lia)) as Hd.
      set (d := Nat.div2 (hi - lo)) in *. clearbody d.
      set (mid := (lo + d)%nat) in *.
      assert (Hm : (lo <= mid < hi)%nat) by (subst mid; lia).
      clearbody mid.
      destruct (Rlt_dec (nth mid a 0) v) as [Hmid|Hmid].
      * apply IH; try lia; [|exact Hhi].
        intros i Hi. apply (Hmono i mid); [lia|exact Hmid].
      * apply IH; try lia; [exact Hlo|].
        intros i Hi Hcontra. apply Hmid.
        apply (Hmono mid i); [lia|exact Hcontra].
    + replace hi with lo in Hhi by lia. now split.
Qed.

(** [length a] rounds are enough for [searchsorted]. *)
Lemma searchsorted_prefix (a : list R) (v : R) :
  (forall i j : nat,
      (i <= j < length a)%nat -> nth j a 0 < v -> nth i a 0 < v) ->
  let k := np.searchsorted a v in
  (k <= length a)%nat
  /\ (forall i, (i < k)%nat -> nth i a 0 < v)
  /\ (forall i, (k <= i < length a)%nat -> ~ nth i a 0 < v).
Proof.
  intros Hmono k. split.
  - subst k. unfold np.searchsorted.
    pose proof (binsearch_range (length a) a v 0 (length a)). lia.
  - apply (binsearch_prefix a v Hmono (length a) 0 (length a)); try lia.
Qed.

(** When every entry is below [v], the result is the length of the array:
    one past the last valid index. *)
Lemma searchsorted_all_below (a : list R) (v : R) :
  (forall i, (i < length a)%nat -> nth i a 0 < v) ->
  np.searchsorted a v = length a.
Proof.
  intros Hall.
  destruct (searchsorted_prefix a v) as [Hle [_ Hge]].
  - intros i j Hij _. apply Hall. lia.
  - destruct (Nat.eq_dec (np.searchsorted a v) (length a)) as [|Hne];
      [assumption|].
    exfalso. apply (Hge (np.searchsorted a v)); [lia|]. apply Hall. lia.
Qed.

(** Reading the array at the end of the prefix is [find] for the first entry
    that is not in the prefix. *)
Lemma nth_error_prefix_find {A : Type} (p : A -> bool) (rs : list A) :
  forall k : nat,
    (forall i x, (i < k)%nat -> nth_error rs i = Some x -> p x = false) ->
    (forall x, nth_error rs k = Some x -> p x = true) ->
    nth_error rs k = find p rs.
Proof.
  induction rs as [|r rs IH]; intros k Hbefore Hat.
  - now destruct k.
  - destruct k as [|k]; simpl.
    + now rewrite (Hat r eq_refl).
    + rewrite (Hbefore 0%nat r ltac:(lia) eq_refl).
      apply IH.
      * intros i x Hi Hx. apply (Hbefore (S i) x); [lia|exact Hx].
      * exact Hat.
Qed.

End searchsorted_facts.

(** ** Derivatives *)

Module calculus.

Lemma deriv_eq (f : R -> R) (x l l' : R) :
  derivable_pt_lim f x l -> l = l' -> derivable_pt_lim f x l'.
Proof. intros H <-. exact H. Qed.

Lemma D_const (c x : R) : derivable_pt_lim (fun _ => c) x 0.
Proof. exact (derivable_pt_lim_const c x). Qed.

Lemma D_id (x : R) : derivable_pt_lim (fun r => r) x 1.
Proof. exact (derivable_pt_lim_id x). Qed.

Lemma D_plus (f g : R -> R) (x lf lg : R) :
  derivable_pt_lim f x lf -> derivable_pt_lim g x lg ->
  derivable_pt_lim (fun r => f r + g r) x (lf + lg).
Proof. exact (derivable_pt_lim_plus f g x lf lg). Qed.

Lemma D_minus (f g : R -> R) (x lf lg : R) :
  derivable_pt_lim f x lf -> derivable_pt_lim g x lg ->
  derivable_pt_lim (fun r => f r - g r) x (lf - lg).
Proof. exact (derivable_pt_lim_minus f g x lf lg). Qed.

Lemma D_mult (f g : R -> R) (x lf lg : R) :
  derivable_pt_lim f x lf -> derivable_pt_lim g x lg ->
  derivable_pt_lim (fun r => f r * g r) x (lf * g x + f x * lg).
Proof. exact (derivable_pt_lim_mult f g x lf lg). Qed.

Lemma D_div (f g : R -> R) (x lf lg : R) :
  derivable_pt_lim f x lf -> derivable_pt_lim g x lg -> g x <> 0 ->
  derivable_pt_lim (fun r => f r / g r) x ((lf * g x - lg * f x) / (g x)²).
Proof. exact (derivable_pt_lim_div f g x lf lg). Qed.

Lemma D_inv (g : R -> R) (x lg : R) :
  derivable_pt_lim g x lg -> g x <> 0 ->
  derivable_pt_lim (fun r => / g r) x (- lg / (g x)²).
Proof.
  intros Hg Hne.
  apply (derivable_pt_lim_ext (fun r => 1 / g r)).
  - intros r. unfold Rdiv. ring.
  - apply (deriv_eq _ _ ((0 * g x - lg * 1) / (g x)²)).
    + apply (D_div (fun _ => 1) g x 0 lg); [apply D_const|exact Hg|exact Hne].
    + unfold Rdiv. ring.
Qed.

Lemma D_ln (f : R -> R) (x lf : R) :
  derivable_pt_lim f x lf -> 0 < f x ->
  derivable_pt_lim (fun r => ln (f r)) x (/ f x * lf).
Proof.
  intros Hf Hpos.
  exact (derivable_pt_lim_comp f ln x lf (/ f x) Hf
           (derivable_pt_lim_ln (f x) Hpos)).
Qed.

Lemma D_pow (f : R -> R) (n : nat) (x lf : R) :
  derivable_pt_lim f x lf ->
  derivable_pt_lim (fun r => f r ^ n) x (INR n * f x ^ pred n * lf).
Proof.
  intros Hf.
  exact (derivable_pt_lim_comp f (fun y => y ^ n) x lf _ Hf
           (derivable_pt_lim_pow (f x) n)).
Qed.

(** Change of variable r = exp u. *)
Lemma D_after_exp (f : R -> R) (u lf : R) :
  derivable_pt_lim f (exp u) lf ->
  derivable_pt_lim (fun u => f (exp u)) u (lf * exp u).
Proof.
  intros Hf.
  exact (derivable_pt_lim_comp exp f u (exp u) lf
           (derivable_pt_lim_exp u) Hf).
Qed.

Lemma D_opp (f : R -> R) (x lf : R) :
  derivable_pt_lim f x lf -> derivable_pt_lim (fun r => - f r) x (- lf).
Proof. exact (derivable_pt_lim_opp f x lf). Qed.

Ltac deriv :=
  repeat first
    [ apply D_const
    | apply D_id
    | eapply D_minus
    | eapply D_plus
    | eapply D_opp
    | eapply D_div
    | eapply D_mult
    | eapply D_inv
    | eapply D_ln
    | eapply D_pow ].

End calculus.

(** ** The bracket ln(1 + r/rs) - 1/(rs/r + 1) of the NFW cumulative mass *)

Module nfw_analysis.
Import calculus.

(** ln(1+x) lies strictly above x/(1+x). *)
Lemma ln_lower (x : R) : 0 < x -> x / (1 + x) < ln (1 + x).
Proof.
  intros Hx.
  assert (Hne : - (x / (1 + x)) <> 0).
  { assert (0 < x / (1 + x)) by (apply Rdiv_lt_0_compat; lra). lra. }
  pose proof (exp_ineq1 _ Hne) as Hexp.
  replace (1 + - (x / (1 + x))) with (/ (1 + x)) in Hexp by (field; lra).
  assert (Hinv : 0 < / (1 + x)) by (apply Rinv_0_lt_compat; lra).
  pose proof (ln_increasing _ _ Hinv Hexp) as Hln.
  rewrite ln_exp, ln_Rinv in Hln by lra. lra.
Qed.

(** The bracket of the NFW cumulative mass. *)
Lemma bracket_eq (rs r : R) :
  0 < rs -> 0 < r ->
  ln (1 + r / rs) - / (rs / r + 1)
  = ln (1 + r / rs) - (r / rs) / (1 + r / rs).
Proof. intros Hrs Hr. f_equal. field. lra. Qed.

Lemma bracket_pos (rs r : R) :
  0 < rs -> 0 < r -> 0 < ln (1 + r / rs) - / (rs / r + 1).
Proof.
  intros Hrs Hr. rewrite bracket_eq by assumption.
  assert (0 < r / rs) by (apply Rdiv_lt_0_compat; lra).
  pose proof (ln_lower (r / rs)). lra.
Qed.

Lemma bracket_deriv (rs r : R) :
  0 < rs -> 0 < r ->
  derivable_pt_lim (fun r => ln (1 + r / rs) - / (rs / r + 1)) r
                   (r / (rs + r) ^ 2).
Proof.
  intros Hrs Hr.
  assert (0 < r / rs) by (apply Rdiv_lt_0_compat; lra).
  assert (0 < rs / r) by (apply Rdiv_lt_0_compat; lra).
  eapply deriv_eq.
  - deriv; lra.
  - unfold Rsqr. field. repeat split; lra.
Qed.

(** The inequality behind the decrease of the mean enclosed density:
    x^2/(1+x)^2 < 3 (ln(1+x) - x/(1+x)) for x > 0. *)
Lemma key_ineq (x : R) :
  0 < x -> x ^ 2 / (1 + x) ^ 2 < 3 * (ln (1 + x) - x / (1 + x)).
Proof.
  intros Hx.
  set (phi := fun t => 3 * (ln (1 + t) - t / (1 + t)) - t ^ 2 / (1 + t) ^ 2).
  set (phi' := fun t => (3 * t ^ 2 + t) / (1 + t) ^ 3).
  destruct (MVT_cor2 phi phi' 0 x Hx) as [c [Heq Hc]].
  - intros c Hc. unfold phi, phi'.
    eapply deriv_eq.
    + deriv; try lra. apply pow_nonzero. lra.
    + unfold Rsqr. simpl. field. lra.
  - assert (Hpos : 0 < phi' c).
    { unfold phi'. apply Rdiv_lt_0_compat; [nra|].
      apply pow_lt. lra. }
    assert (H0 : phi 0 = 0).
    { unfold phi. rewrite Rplus_0_r, ln_1. field. }
    rewrite H0 in Heq.
    assert (0 < phi x) by nra.
    unfold phi in H. lra.
Qed.

(** bracket(r)/r^3 is strictly decreasing on r > 0. *)
Lemma bracket_over_cube_decreasing (rs a b : R) :
  0 < rs -> 0 < a -> a < b ->
  (ln (1 + b / rs) - / (rs / b + 1)) / b ^ 3
  < (ln (1 + a / rs) - / (rs / a + 1)) / a ^ 3.
Proof.
  intros Hrs Ha Hab.
  set (f := fun r => (ln (1 + r / rs) - / (rs / r + 1)) / r ^ 3).
  set (f' := fun r =>
        (r / (rs + r) ^ 2 * r ^ 3
         - INR 3 * r ^ 2 * 1 * (ln (1 + r / rs) - / (rs / r + 1)))
        / (r ^ 3)²).
  destruct (MVT_cor2 f f' a b Hab) as [c [Heq Hc]].
  - intros c Hc. unfold f, f'.
    apply (D_div (fun r => ln (1 + r / rs) - / (rs / r + 1))
                 (fun r => r ^ 3) c).
    + apply bracket_deriv; lra.
    + apply (D_pow (fun r => r) 3 c 1). apply D_id.
    + apply pow_nonzero. lra.
  - assert (Hneg : f' c < 0).
    { unfold f'.
      assert (Hc0 : 0 < c) by lra.
      assert (Hx : 0 < c / rs) by (apply Rdiv_lt_0_compat; lra).
      pose proof (key_ineq (c / rs) Hx) as Hkey.
      rewrite <- bracket_eq in Hkey by lra.
      replace ((c / rs) ^ 2 / (1 + c / rs) ^ 2) with (c ^ 2 / (rs + c) ^ 2)
        in Hkey by (field; lra).
      set (br := ln (1 + c / rs) - / (rs / c + 1)) in *.
      set (q := c ^ 2 / (rs + c) ^ 2) in *.
      replace (c / (rs + c) ^ 2 * c ^ 3 - INR 3 * c ^ 2 * 1 * br)
        with (c ^ 2 * (q - 3 * br)) by (unfold q; simpl; field; lra).
      assert (0 < c ^ 2) by (apply pow_lt; lra).
      assert (0 < (c ^ 3)²).
      { unfold Rsqr. apply Rmult_lt_0_compat; apply pow_lt; lra. }
      assert (Hnum : c ^ 2 * (q - 3 * br) < 0) by nra.
      assert (Hinv : 0 < / (c ^ 3)²) by (apply Rinv_0_lt_compat; assumption).
      unfold Rdiv. nra. }
    fold (f a) (f b). nra.
Qed.

End nfw_analysis.

(** ** NFW: lengths, masses and the mean enclosed density *)

Module NFW_facts.
Import nfw_analysis.

Section WithCosmology.

Context (cosmo : Cosmology).

Lemma rvir_pos (self : NFW.t) : 0 < NFW.rvir cosmo self.
Proof. unfold NFW.rvir, Rpower. apply exp_pos. Qed.

Lemma r_scale_pos (self : NFW.t) :
  0 < NFW.cvir self -> 0 < NFW.r_scale cosmo self.
Proof.
  intros Hc. unfold NFW.r_scale.
  apply Rdiv_lt_0_compat; [apply rvir_pos|exact Hc].
Qed.

Lemma rho2rho_scale_pos (self : NFW.t) (r : R) :
  0 < NFW.cvir self -> 0 < r -> 0 < NFW.rho2rho_scale cosmo self r.
Proof.
  intros Hc Hr. unfold NFW.rho2rho_scale.
  pose proof (r_scale_pos self Hc) as Hrs.
  assert (Hx : 0 < r / NFW.r_scale cosmo self)
    by (apply Rdiv_lt_0_compat; assumption).
  apply Rdiv_lt_0_compat; [lra|].
  apply Rmult_lt_0_compat; [exact Hx|]. apply pow_lt. lra.
Qed.

Lemma enclosedMass_pos (self : NFW.t) (r : R) :
  0 < NFW.cvir self -> 0 < NFW.rho_scale self -> 0 < r ->
  0 < NFW.enclosedMass cosmo self r.
Proof.
  intros Hc Hrho Hr. unfold NFW.enclosedMass.
  pose proof (r_scale_pos self Hc) as Hrs.
  pose proof (bracket_pos _ _ Hrs Hr) as Hb.
  pose proof PI_RGT_0 as Hpi.
  assert (0 < NFW.r_scale cosmo self ^ 3) by (apply pow_lt; exact Hrs).
  assert (0 < 16 * PI * NFW.rho_scale self) by nra.
  apply Rmult_lt_0_compat; [|exact Hb].
  apply Rmult_lt_0_compat; assumption.
Qed.

(** The mean enclosed density is a positive multiple of bracket(r)/r^3. *)
Lemma mean_enclosed_as_bracket (self : NFW.t) (r : R) :
  0 < r -> 0 < critical_density cosmo (NFW.z self) ->
  NFW.mean_enclosed_rho2rhocrit cosmo self r
  = 12 * NFW.rho_scale self * NFW.r_scale cosmo self ^ 3
    / critical_density cosmo (NFW.z self)
    * ((ln (1 + r / NFW.r_scale cosmo self)
        - / (NFW.r_scale cosmo self / r + 1)) / r ^ 3).
Proof.
  intros Hr Hcrit. unfold NFW.mean_enclosed_rho2rhocrit, NFW.enclosedMass.
  pose proof PI_RGT_0 as Hpi.
  set (br := ln _ - / _). field. repeat split; lra.
Qed.

Lemma mean_enclosed_decreasing (self : NFW.t) (r1 r2 : R) :
  0 < NFW.cvir self -> 0 < NFW.rho_scale self ->
  0 < critical_density cosmo (NFW.z self) ->
  0 < r1 -> r1 < r2 ->
  NFW.mean_enclosed_rho2rhocrit cosmo self r2
  < NFW.mean_enclosed_rho2rhocrit cosmo self r1.
Proof.
  intros Hc Hrho Hcrit Hr1 Hlt.
  rewrite !mean_enclosed_as_bracket by lra.
  pose proof (r_scale_pos self Hc) as Hrs.
  apply Rmult_lt_compat_l.
  - apply Rdiv_lt_0_compat; [|exact Hcrit].
    assert (0 < NFW.r_scale cosmo self ^ 3) by (apply pow_lt; exact Hrs).
    nra.
  - apply bracket_over_cube_decreasing; assumption.
Qed.

Lemma mean_enclosed_pos (self : NFW.t) (r : R) :
  0 < NFW.cvir self -> 0 < NFW.rho_scale self ->
  0 < critical_density cosmo (NFW.z self) -> 0 < r ->
  0 < NFW.mean_enclosed_rho2rhocrit cosmo self r.
Proof.
  intros Hc Hrho Hcrit Hr. unfold NFW.mean_enclosed_rho2rhocrit.
  pose proof (enclosedMass_pos self r Hc Hrho Hr) as HM.
  pose proof PI_RGT_0 as Hpi.
  assert (0 < r ^ 3) by (apply pow_lt; exact Hr).
  apply Rdiv_lt_0_compat; [|exact Hcrit].
  apply Rdiv_lt_0_compat; [exact HM|]. nra.
Qed.

End WithCosmology.

End NFW_facts.

(** ** The overdensity-radius search *)

Module overdensity.
Import np_facts searchsorted_facts.

Lemma nth_neg_map (f : R -> R) (rs : list R) (i : nat) :
  (i < length rs)%nat -> nth i (np.neg (map f rs)) 0 = - f (nth i rs 0).
Proof.
  intros Hi. unfold np.neg. rewrite map_map.
  rewrite (nth_indep _ 0 (- f 0)) by (now rewrite length_map).
  apply (map_nth (fun r => - f r)).
Qed.

Lemma length_neg_map (f : R -> R) (rs : list R) :
  length (np.neg (map f rs)) = length rs.
Proof. unfold np.neg. now rewrite !length_map. Qed.

(** Along a grid on which [f] decreases, the search on the negated values
    reads the first radius at which [f] is at or below the threshold. *)
Lemma search_first (f : R -> R) (rs : list R) (thr : R) :
  (forall i j : nat,
      (i < j < length rs)%nat -> f (nth j rs 0) < f (nth i rs 0)) ->
  nth_error rs (np.searchsorted (np.neg (map f rs)) (- thr))
  = first_at_or_below f thr rs.
Proof.
  intros Hdec.
  destruct (searchsorted_prefix (np.neg (map f rs)) (- thr))
    as [Hle [Hbelow Habove]].
  { intros i j. rewrite length_neg_map. intros Hij Hj.
    rewrite nth_neg_map in * by lia.
    destruct (Nat.eq_dec i j) as [->|Hne]; [exact Hj|].
    specialize (Hdec i j ltac:(lia)). lra. }
  rewrite length_neg_map in Hle, Habove.
  unfold first_at_or_below. apply nth_error_prefix_find.
  - intros i x Hi Hx.
    assert (Hlen : (i < length rs)%nat)
      by (apply nth_error_Some; congruence).
    specialize (Hbelow i Hi). rewrite nth_neg_map in Hbelow by exact Hlen.
    rewrite (nth_error_nth _ _ 0 Hx) in Hbelow.
    destruct (Rle_dec (f x) thr); [lra|reflexivity].
  - intros x Hx.
    assert (Hlen : (np.searchsorted (np.neg (map f rs)) (- thr)
                    < length rs)%nat)
      by (apply nth_error_Some; congruence).
    specialize (Habove _ (conj (le_n _) Hlen)).
    rewrite nth_neg_map in Habove by exact Hlen.
    rewrite (nth_error_nth _ _ 0 Hx) in Habove.
    destruct (Rle_dec (f x) thr); [reflexivity|lra].
Qed.

(** The radii read before the returned index are all above the threshold. *)
Lemma search_earlier_above (f : R -> R) (rs : list R) (thr : R) :
  (forall i j : nat,
      (i < j < length rs)%nat -> f (nth j rs 0) < f (nth i rs 0)) ->
  forall i : nat,
    (i < np.searchsorted (np.neg (map f rs)) (- thr))%nat ->
    thr < f (nth i rs 0).
Proof.
  intros Hdec i Hi.
  destruct (searchsorted_prefix (np.neg (map f rs)) (- thr))
    as [Hle [Hbelow _]].
  { intros i' j. rewrite length_neg_map. intros Hij Hj.
    rewrite nth_neg_map in * by lia.
    destruct (Nat.eq_dec i' j) as [->|Hne]; [exact Hj|].
    specialize (Hdec i' j ltac:(lia)). lra. }
  rewrite length_neg_map in Hle.
  specialize (Hbelow i Hi). rewrite nth_neg_map in Hbelow by lia. lra.
Qed.

(** When [f] is above the threshold on the whole grid, the search returns
    the length of the grid and the indexing is out of range. *)
Lemma search_out_of_range (f : R -> R) (rs : list R) (thr : R) :
  (forall r, In r rs -> thr < f r) ->
  np.searchsorted (np.neg (map f rs)) (- thr) = length rs
  /\ nth_error rs (np.searchsorted (np.neg (map f rs)) (- thr)) = None.
Proof.
  intros Habove.
  assert (Hlen : np.searchsorted (np.neg (map f rs)) (- thr) = length rs).
  { transitivity (length (np.neg (map f rs)));
      [|apply length_neg_map].
    apply searchsorted_all_below.
    intros i Hi. rewrite length_neg_map in Hi.
    rewrite nth_neg_map by exact Hi.
    specialize (Habove (nth i rs 0) (nth_In _ _ Hi)). lra. }
  split; [exact Hlen|]. rewrite Hlen. now apply nth_error_None.
Qed.

Lemma first_at_or_below_Some (f : R -> R) (thr : R) (rs : list R) :
  (exists r, In r rs /\ f r <= thr) ->
  exists r, first_at_or_below f thr rs = Some r /\ In r rs /\ f r <= thr.
Proof.
  intros [r0 [Hin Hle]]. unfold first_at_or_below.
  destruct (find _ rs) as [r|] eqn:Hfind.
  - exists r. apply find_some in Hfind. destruct Hfind as [Hr Hp].
    destruct (Rle_dec (f r) thr); [now repeat split|discriminate].
  - exfalso. pose proof (find_none _ _ Hfind r0 Hin) as Hp.
    cbv beta in Hp. destruct (Rle_dec (f r0) thr); [discriminate|lra].
Qed.

Section Grid.

Context (fl : np.rounding) (cosmo : Cosmology).

Lemma search_rs_nth (self : NFW.t) (i : nat) :
  (i < length (NFW.search_rs fl cosmo self))%nat ->
  nth i (NFW.search_rs fl cosmo self) 0 = NFW.dr self + INR i * NFW.dr self.
Proof.
  intros Hi. apply nth_error_nth.
  now apply arange_nth_error.
Qed.

Lemma search_rs_pos (self : NFW.t) (r : R) :
  0 < NFW.dr self -> In r (NFW.search_rs fl cosmo self) -> 0 < r.
Proof. intros Hdr. apply arange_grid_pos. exact Hdr. Qed.

(** The mean enclosed density decreases along the search grid. *)
Lemma mean_decreasing_on_grid (self : NFW.t) :
  0 < NFW.cvir self -> 0 < NFW.rho_scale self ->
  0 < critical_density cosmo (NFW.z self) -> 0 < NFW.dr self ->
  forall i j : nat,
    (i < j < length (NFW.search_rs fl cosmo self))%nat ->
    NFW.mean_enclosed_rho2rhocrit cosmo self
      (nth j (NFW.search_rs fl cosmo self) 0)
    < NFW.mean_enclosed_rho2rhocrit cosmo self
        (nth i (NFW.search_rs fl cosmo self) 0).
Proof.
  intros Hc Hrho Hcrit Hdr i j Hij.
  rewrite !search_rs_nth by lia.
  assert (Hlt : INR i < INR j) by (apply lt_INR; lia).
  pose proof (pos_INR i) as Hi.
  apply NFW_facts.mean_enclosed_decreasing; try assumption; nra.
Qed.

(** A grid radius below the one at index [k] sits at an index below [k]. *)
Lemma search_rs_earlier (self : NFW.t) (k : nat) (r r' : R) :
  0 < NFW.dr self ->
  nth_error (NFW.search_rs fl cosmo self) k = Some r ->
  In r' (NFW.search_rs fl cosmo self) -> r' < r ->
  exists i : nat, (i < k)%nat /\ nth i (NFW.search_rs fl cosmo self) 0 = r'.
Proof.
  intros Hdr Hk Hin Hlt.
  assert (Hklen : (k < length (NFW.search_rs fl cosmo self))%nat)
    by (apply nth_error_Some; congruence).
  unfold NFW.search_rs in *.
  rewrite (arange_nth_error _ _ _ _ _ Hklen) in Hk. injection Hk as <-.
  destruct (arange_In _ _ _ _ _ Hin) as [i [Hi ->]].
  exists i. split.
  - destruct (Nat.lt_ge_cases i k) as [Hik|Hki]; [exact Hik|].
    apply le_INR in Hki. nra.
  - apply nth_error_nth. now apply arange_nth_error.
Qed.

(** The first grid radius is [dr] as soon as the grid has a point. *)
Lemma search_rs_head (self : NFW.t) :
  0 < np.quotient fl (NFW.dr self) (2 * NFW.rvir cosmo self) (NFW.dr self) ->
  In (NFW.dr self) (NFW.search_rs fl cosmo self).
Proof.
  intros Hpos.
  assert (Hlen : (0 < length (NFW.search_rs fl cosmo self))%nat).
  { unfold NFW.search_rs. rewrite arange_length.
    pose proof (ceil_pos _ Hpos). lia. }
  pose proof (arange_nth_error _ _ _ _ _ Hlen) as H0.
  apply nth_error_In in H0.
  replace (NFW.dr self + INR 0 * NFW.dr self) with (NFW.dr self) in H0
    by (simpl; ring).
  exact H0.
Qed.

End Grid.

End overdensity.

(** ** The constructor of NFW *)

Module init_facts.
Import np_facts.

Section WithCosmology.

Context (fl : np.rounding) (cosmo : Cosmology).

Variables (Mvir z : R) (cvir _fdr : option R).

Let self : NFW.t := NFW.init fl cosmo Mvir z cvir _fdr.

Lemma init_Mvir : NFW.Mvir self = Mvir.
Proof. reflexivity. Qed.

Lemma init_cvir_given (c : R) : cvir = Some c -> NFW.cvir self = c.
Proof. intros Hc. subst self. rewrite Hc. reflexivity. Qed.

Lemma init_fdr : NFW._fdr self = kwarg 100 _fdr.
Proof. reflexivity. Qed.

Lemma init_dr : NFW.dr self = NFW.r_scale cosmo self / NFW._fdr self.
Proof. reflexivity. Qed.

(** The stored density scale is one quotient: the mass over the sum of the
    integrand. *)
Lemma init_rho_scale :
  NFW.rho_scale self
  = Mvir / np.sum (NFW.init_integrand cosmo self (NFW.init_rs fl cosmo self)).
Proof. reflexivity. Qed.

Hypothesis cvir_pos : 0 < NFW.cvir self.
Hypothesis fdr_pos : 0 < NFW._fdr self.

Lemma init_dr_pos : 0 < NFW.dr self.
Proof.
  rewrite init_dr. apply Rdiv_lt_0_compat; [|exact fdr_pos].
  apply NFW_facts.r_scale_pos. exact cvir_pos.
Qed.

(** The real quotient behind the length of the constructor's grid. *)
Lemma init_rs_steps :
  (NFW.rvir cosmo self - NFW.dr self) / NFW.dr self
  = NFW.cvir self * NFW._fdr self - 1.
Proof.
  rewrite init_dr. unfold NFW.r_scale.
  pose proof (NFW_facts.rvir_pos cosmo self) as Hr.
  field. repeat split; lra.
Qed.

(** The grid has a radius as soon as [cvir * _fdr] exceeds 1 by more than
    the rounding of the quotient. *)
Lemma init_rs_nonempty :
  np.tol * (NFW.cvir self * NFW._fdr self)
  < NFW.cvir self * NFW._fdr self - 1 ->
  NFW.init_rs fl cosmo self <> [].
Proof.
  intros Hcf. unfold NFW.init_rs. apply arange_nonempty.
  destruct (quotient_bounds fl (NFW.dr self) (NFW.rvir cosmo self)
              (NFW.dr self)) as [Hlo _].
  rewrite init_rs_steps in Hlo.
  assert (Hcf0 : 0 < NFW.cvir self * NFW._fdr self)
    by (apply Rmult_lt_0_compat; assumption).
  destruct tol_bounds as [Ht _].
  assert (Hq : 0 < NFW.cvir self * NFW._fdr self - 1) by nra.
  rewrite (Rabs_right _ (Rle_ge _ _ (Rlt_le _ _ Hq))) in Hlo. lra.
Qed.

Lemma init_integrand_sum_pos :
  NFW.init_rs fl cosmo self <> [] ->
  0 < np.sum (NFW.init_integrand cosmo self (NFW.init_rs fl cosmo self)).
Proof.
  intros Hne. pose proof init_dr_pos as Hdr.
  apply sum_pos.
  - unfold NFW.init_integrand. intros Hnil. apply map_eq_nil in Hnil.
    now apply Hne.
  - intros x Hx. unfold NFW.init_integrand in Hx.
    apply in_map_iff in Hx. destruct Hx as [r [<- Hr]].
    apply (arange_grid_pos _ _ _ _ Hdr) in Hr.
    pose proof (NFW_facts.rho2rho_scale_pos cosmo self r cvir_pos Hr)
      as Hrho.
    pose proof PI_RGT_0 as Hpi.
    assert (Hr2 : 0 < r ^ 2) by (apply pow_lt; exact Hr).
    assert (H4 : 0 < 4 * PI * r ^ 2) by nra.
    apply Rmult_lt_0_compat; [|exact Hrho].
    apply Rmult_lt_0_compat; [exact H4|exact Hdr].
Qed.

Lemma init_rho_scale_pos :
  0 < Mvir -> NFW.init_rs fl cosmo self <> [] -> 0 < NFW.rho_scale self.
Proof.
  intros HM Hne. rewrite init_rho_scale.
  apply Rdiv_lt_0_compat; [exact HM|].
  now apply init_integrand_sum_pos.
Qed.

(** The sum with [rho_scale] inside is [rho_scale] times the sum of the
    integrand. *)
Lemma normalization_sum_factor :
  NFW.normalization_sum fl cosmo self
  = NFW.rho_scale self
    * np.sum (NFW.init_integrand cosmo self (NFW.init_rs fl cosmo self)).
Proof.
  unfold NFW.normalization_sum, NFW.init_integrand.
  rewrite <- sum_scal. f_equal. apply map_ext. intros r. ring.
Qed.

End WithCosmology.

(** Without rounding the grid is empty exactly when [cvir * _fdr <= 1]. *)
Lemma init_rs_ideal_nonempty
      (cosmo : Cosmology) (Mvir z : R) (cvir _fdr : option R) :
  let self := NFW.init np.ideal cosmo Mvir z cvir _fdr in
  0 < NFW.cvir self -> 0 < NFW._fdr self ->
  1 < NFW.cvir self * NFW._fdr self ->
  NFW.init_rs np.ideal cosmo self <> [].
Proof.
  intros self Hc Hf Hcf. subst self.
  unfold NFW.init_rs. apply arange_nonempty.
  rewrite quotient_ideal.
  rewrite (init_rs_steps np.ideal cosmo Mvir z cvir _fdr Hc Hf). lra.
Qed.

Lemma init_rs_ideal_empty
      (cosmo : Cosmology) (Mvir z : R) (cvir _fdr : option R) :
  let self := NFW.init np.ideal cosmo Mvir z cvir _fdr in
  0 < NFW.cvir self -> 0 < NFW._fdr self ->
  NFW.cvir self * NFW._fdr self <= 1 ->
  NFW.init_rs np.ideal cosmo self = [].
Proof.
  intros self Hc Hf Hcf. subst self.
  unfold NFW.init_rs. apply arange_empty.
  rewrite quotient_ideal.
  rewrite (init_rs_steps np.ideal cosmo Mvir z cvir _fdr Hc Hf). lra.
Qed.

Lemma PI_above_3 : 3 < PI.
Proof. pose proof PI2_3_2. lra. Qed.

Lemma Planck15_z0_Delta_c_pos (self : NFW.t) :
  0 < NFW.Delta_c Planck15_z0 self.
Proof.
  unfold NFW.Delta_c. simpl. pose proof PI_above_3 as Hpi. nra.
Qed.

Lemma coarse_halo_physical : NFW.physical Planck15_z0 coarse_halo.
Proof.
  unfold NFW.physical. simpl. repeat split; try lra.
  apply Planck15_z0_Delta_c_pos.
Qed.

Lemma coarse_halo_rho_scale_pos : 0 < NFW.rho_scale coarse_halo.
Proof.
  apply init_rho_scale_pos; try (simpl; lra).
  apply init_rs_ideal_nonempty; simpl; lra.
Qed.

Lemma coarse_halo_dr_pos : 0 < NFW.dr coarse_halo.
Proof. apply init_dr_pos; simpl; lra. Qed.

(** The search grid of the sample halo has three radii. *)
Lemma coarse_halo_search_quotient :
  np.quotient np.ideal (NFW.dr coarse_halo)
              (2 * NFW.rvir Planck15_z0 coarse_halo) (NFW.dr coarse_halo)
  = 3.
Proof.
  rewrite quotient_ideal.
  pose proof (NFW_facts.rvir_pos Planck15_z0 coarse_halo) as Hrv.
  unfold coarse_halo in *. rewrite init_dr.
  unfold NFW.r_scale. cbn [NFW.cvir NFW._fdr NFW.init kwarg]. field. lra.
Qed.

End init_facts.

(** * Main results *)

(** ** The normalization of [rho_scale] *)

(** C1, as stated, at a halo with [cvir = 1] and [_fdr = 1]: both are
    positive and [dr] equals [rvir], so the quotient that decides the length
    of the grid is [(rvir - rvir)/rvir = 0], computed without error; the
    grid of the constructor is empty and the sum is 0 instead of
    [Mvir = 1e12]. *)
Lemma init_normalization_empty_grid :
  0 < NFW.cvir degenerate_halo
  /\ 0 < NFW._fdr degenerate_halo
  /\ NFW.init_rs np.ideal Planck15_z0 degenerate_halo = []
  /\ NFW.normalization_sum np.ideal Planck15_z0 degenerate_halo
     <> NFW.Mvir degenerate_halo.
Proof.
  assert (Hnil : NFW.init_rs np.ideal Planck15_z0 degenerate_halo = []).
  { unfold degenerate_halo. apply init_facts.init_rs_ideal_empty; simpl; lra. }
  repeat split.
  - simpl. lra.
  - simpl. lra.
  - exact Hnil.
  - unfold NFW.normalization_sum. rewrite Hnil. simpl. lra.
Qed.

(** C1 (amended): when moreover the grid that the constructor builds is not
    empty and the inputs are physical, [rho_scale] is the single quotient of
    [Mvir] by the sum of [4 pi r^2 * dr * f(r)] over the radii of that grid,
    which starts at [dr = r_scale / _fdr] and advances by [dr], with
    [r_scale = rvir / cvir], and the sum of
    [4 pi r^2 * dr * rho_scale * f(r)] over the same radii is [Mvir].  This
    holds for the grid as built, whatever the rounding of its length makes
    of its last radius. *)
Theorem init_normalizes_rho_scale
        (fl : np.rounding) (cosmo : Cosmology) (Mvir z : R)
        (cvir _fdr : option R) :
  let self := NFW.init fl cosmo Mvir z cvir _fdr in
  NFW.physical cosmo self -> 0 < NFW._fdr self ->
  NFW.init_rs fl cosmo self <> [] ->
  NFW.rho_scale self
  = Mvir / np.sum (map (fun r => 4 * PI * r ^ 2 * NFW.dr self
                                 * NFW.rho2rho_scale cosmo self r)
                       (np.arange fl (NFW.dr self) (NFW.rvir cosmo self)
                                  (NFW.dr self)))
  /\ NFW.dr self = NFW.r_scale cosmo self / NFW._fdr self
  /\ NFW.r_scale cosmo self = NFW.rvir cosmo self / NFW.cvir self
  /\ NFW.normalization_sum fl cosmo self = Mvir.
Proof.
  intros self [HM [Hc _]] Hf Hne.
  split; [reflexivity|]. split; [reflexivity|]. split; [reflexivity|].
  subst self.
  rewrite init_facts.normalization_sum_factor.
  rewrite init_facts.init_rho_scale.
  pose proof (init_facts.init_integrand_sum_pos fl cosmo Mvir z cvir _fdr
                Hc Hf Hne) as Hpos.
  field. lra.
Qed.

Lemma init_normalizes_rho_scale_witness :
  NFW.physical Planck15_z0 coarse_halo
  /\ 0 < NFW._fdr coarse_halo
  /\ NFW.init_rs np.ideal Planck15_z0 coarse_halo <> []
  /\ NFW.normalization_sum np.ideal Planck15_z0 coarse_halo = 1000000000000.
Proof.
  assert (Hne : NFW.init_rs np.ideal Planck15_z0 coarse_halo <> []).
  { unfold coarse_halo. apply init_facts.init_rs_ideal_nonempty; simpl; lra. }
  split; [exact init_facts.coarse_halo_physical|].
  split; [simpl; lra|]. split; [exact Hne|].
  apply (init_normalizes_rho_scale np.ideal Planck15_z0 1000000000000 0
           (Some 2) (Some 1));
    [exact init_facts.coarse_halo_physical|simpl; lra|exact Hne].
Defined.

(** ** The logarithmic slope of the NFW rotation curve *)

Module slope.
Import calculus nfw_analysis.

Section WithCosmology.

Context (cosmo : Cosmology) (self : NFW.t).

Hypothesis cvir_pos : 0 < NFW.cvir self.
Hypothesis rho_scale_pos : 0 < NFW.rho_scale self.
Hypothesis G_pos : 0 < G cosmo.

Let rs : R := NFW.r_scale cosmo self.
Let K : R := 16 * PI * NFW.rho_scale self * rs ^ 3.

Lemma K_pos : 0 < K.
Proof.
  unfold K. pose proof PI_RGT_0.
  assert (0 < rs ^ 3)
    by (apply pow_lt; apply NFW_facts.r_scale_pos; exact cvir_pos).
  assert (0 < 16 * PI * NFW.rho_scale self) by nra.
  apply Rmult_lt_0_compat; assumption.
Qed.

(** vc^2 = G M(r) / r and its derivative. *)
Lemma vc2_deriv (r : R) :
  0 < r ->
  derivable_pt_lim
    (fun r => G cosmo * NFW.enclosedMass cosmo self r / r) r
    ((G cosmo * (K * (r / (rs + r) ^ 2)) * r
      - 1 * (G cosmo * NFW.enclosedMass cosmo self r)) / r²).
Proof.
  intros Hr.
  assert (Hrs : 0 < rs) by (apply NFW_facts.r_scale_pos; exact cvir_pos).
  apply (D_div (fun r => G cosmo * NFW.enclosedMass cosmo self r)
               (fun r => r) r); [|apply D_id|lra].
  eapply deriv_eq.
  - apply (D_mult (fun _ => G cosmo) (NFW.enclosedMass cosmo self) r);
      [apply D_const|].
    unfold NFW.enclosedMass.
    apply (D_mult (fun _ => K)
                  (fun r => ln (1 + r / rs) - / (rs / r + 1)) r);
      [apply D_const|].
    apply bracket_deriv; assumption.
  - ring.
Qed.

Lemma vc2_pos (r : R) :
  0 < r -> 0 < G cosmo * NFW.enclosedMass cosmo self r / r.
Proof.
  intros Hr.
  pose proof (NFW_facts.enclosedMass_pos cosmo self r
                cvir_pos rho_scale_pos Hr) as HM.
  apply Rdiv_lt_0_compat; [|exact Hr].
  apply Rmult_lt_0_compat; assumption.
Qed.

Lemma vc_pos (r : R) : 0 < r -> 0 < NFW.vc cosmo self r.
Proof. intros Hr. apply sqrt_lt_R0. now apply vc2_pos. Qed.

(** The derivative of the circular velocity. *)
Lemma vc_deriv (r : R) :
  0 < r ->
  derivable_pt_lim (NFW.vc cosmo self) r
    (NFW.vc cosmo self r / r * NFW.dlnvc_dlnR cosmo self r).
Proof.
  intros Hr.
  assert (Hrs : 0 < rs) by (apply NFW_facts.r_scale_pos; exact cvir_pos).
  pose proof (vc2_pos r Hr) as Hu.
  pose proof K_pos as HK.
  eapply deriv_eq.
  - exact (derivable_pt_lim_comp
             (fun r => G cosmo * NFW.enclosedMass cosmo self r / r) sqrt r
             _ _ (vc2_deriv r Hr) (derivable_pt_lim_sqrt _ Hu)).
  - unfold NFW.vc, NFW.vc_, NFW.dlnvc_dlnR. cbv zeta.
    set (u := G cosmo * NFW.enclosedMass cosmo self r / r) in *.
    assert (Hs : sqrt u * sqrt u = u) by (apply sqrt_sqrt; lra).
    assert (Hsp : 0 < sqrt u) by (apply sqrt_lt_R0; exact Hu).
    assert (HM : G cosmo * NFW.enclosedMass cosmo self r = u * r)
      by (unfold u; field; lra).
    rewrite HM.
    assert (Hbr : u * r
                  = G cosmo * (K * (ln (1 + r / rs) - / (rs / r + 1)))).
    { rewrite <- HM. unfold NFW.enclosedMass. reflexivity. }
    pose proof (bracket_pos rs r Hrs Hr) as Hbpos.
    fold rs.
    replace ((rs + r) / rs) with (1 + r / rs) by (field; lra).
    replace (/ (rs / r + 1)) with (r / (rs + r)) in * by (field; lra).
    set (B := ln (1 + r / rs)) in *.
    assert (HAB : 0 < (rs + r) * B - r).
    { assert (0 < (rs + r) * (B - r / (rs + r))) by
        (apply Rmult_lt_0_compat; lra).
      replace ((rs + r) * (B - r / (rs + r))) with ((rs + r) * B - r)
        in H by (field; lra).
      exact H. }
    assert (Hu_eq : u = G cosmo * K * (B - r / (rs + r)) / r)
      by (apply (Rmult_eq_reg_r r); [rewrite Hbr; field|]; lra).
    apply (Rmult_eq_reg_r (2 * sqrt u)); [|lra].
    clearbody u B. unfold Rsqr.
    transitivity ((G cosmo * (K * (r / (rs + r) ^ 2)) * r - 1 * (u * r))
                  / (r * r)); [field; repeat split; lra|].
    transitivity (u * (2 * (1 / 2 * (- r ^ 2 + (rs + r) * (- r + (rs + r) * B))
                           / ((rs + r) * (r - (rs + r) * B)))) / r).
    + rewrite Hu_eq. field. repeat split; lra.
    + rewrite <- Hs at 1. field. repeat split; lra.
Qed.

(** d ln vc / d ln r, with r = exp u. *)
Lemma ln_vc_deriv (r : R) :
  0 < r ->
  derivable_pt_lim (fun u => ln (NFW.vc cosmo self (exp u))) (ln r)
                   (NFW.dlnvc_dlnR cosmo self r).
Proof.
  intros Hr.
  pose proof (vc_pos r Hr) as Hv.
  pose proof (vc_deriv r Hr) as Hd.
  rewrite <- (exp_ln r Hr) in Hd at 1.
  eapply deriv_eq.
  - apply (D_ln (fun u => NFW.vc cosmo self (exp u)) (ln r)).
    + apply (D_after_exp (NFW.vc cosmo self) (ln r)). exact Hd.
    + rewrite exp_ln by exact Hr. exact Hv.
  - rewrite exp_ln by exact Hr. field. lra.
Qed.

End WithCosmology.

End slope.

(** C2: for every radius [r > 0] of a physical halo, [dlnvc_dlnR r], the
    closed form [1/2 (-r^2 + A (-r + A B)) / (A (r - A B))] with
    [A = r_scale + r] and [B = ln (A / r_scale)], is the derivative of
    [ln vc] with respect to [ln r] for [vc r = sqrt (G enclosedMass(r) / r)];
    equivalently [vc] has derivative [vc r / r * dlnvc_dlnR r] at [r]. *)
Theorem dlnvc_dlnR_is_logarithmic_derivative
        (cosmo : Cosmology) (self : NFW.t) (r : R) :
  NFW.physical cosmo self -> 0 < NFW.rho_scale self -> 0 < G cosmo ->
  0 < r ->
  (let A := NFW.r_scale cosmo self + r in
   let B := ln (A / NFW.r_scale cosmo self) in
   NFW.dlnvc_dlnR cosmo self r
   = 1 / 2 * (- r ^ 2 + A * (- r + A * B)) / (A * (r - A * B)))
  /\ NFW.vc cosmo self r = sqrt (G cosmo * NFW.enclosedMass cosmo self r / r)
  /\ derivable_pt_lim (fun u => ln (NFW.vc cosmo self (exp u))) (ln r)
                      (NFW.dlnvc_dlnR cosmo self r)
  /\ derivable_pt_lim (NFW.vc cosmo self) r
                      (NFW.vc cosmo self r / r * NFW.dlnvc_dlnR cosmo self r).
Proof.
  intros [_ [Hc _]] Hrho HG Hr.
  split; [reflexivity|]. split; [reflexivity|]. split.
  - now apply slope.ln_vc_deriv.
  - now apply slope.vc_deriv.
Qed.

Lemma dlnvc_dlnR_is_logarithmic_derivative_witness :
  derivable_pt_lim (fun u => ln (NFW.vc Planck15_z0 coarse_halo (exp u))) (ln 1)
                   (NFW.dlnvc_dlnR Planck15_z0 coarse_halo 1).
Proof.
  apply (dlnvc_dlnR_is_logarithmic_derivative Planck15_z0 coarse_halo 1).
  - exact init_facts.coarse_halo_physical.
  - exact init_facts.coarse_halo_rho_scale_pos.
  - simpl. lra.
  - lra.
Defined.

(** ** Overdensity radii and masses *)

(** C4: for a physical halo with [rho_scale > 0],
    [mean_enclosed_rho2rhocrit] is strictly decreasing on [(0, 2 rvir]]. *)
Theorem mean_enclosed_rho2rhocrit_strictly_decreasing
        (cosmo : Cosmology) (self : NFW.t) (r1 r2 : R) :
  NFW.physical cosmo self -> 0 < NFW.rho_scale self ->
  0 < r1 -> r1 < r2 -> r2 <= 2 * NFW.rvir cosmo self ->
  NFW.mean_enclosed_rho2rhocrit cosmo self r2
  < NFW.mean_enclosed_rho2rhocrit cosmo self r1.
Proof.
  intros [_ [Hc [Hcrit _]]] Hrho Hr1 Hlt _.
  now apply NFW_facts.mean_enclosed_decreasing.
Qed.

Lemma mean_enclosed_rho2rhocrit_strictly_decreasing_witness :
  NFW.mean_enclosed_rho2rhocrit Planck15_z0 coarse_halo (2 * NFW.rvir Planck15_z0 coarse_halo)
  < NFW.mean_enclosed_rho2rhocrit Planck15_z0 coarse_halo (NFW.rvir Planck15_z0 coarse_halo).
Proof.
  pose proof (NFW_facts.rvir_pos Planck15_z0 coarse_halo) as Hr.
  apply (mean_enclosed_rho2rhocrit_strictly_decreasing Planck15_z0 coarse_halo).
  - exact init_facts.coarse_halo_physical.
  - exact init_facts.coarse_halo_rho_scale_pos.
  - exact Hr.
  - lra.
  - lra.
Defined.

(** C3: on a physical halo, [r200 delta] is the first radius of the grid
    from [dr] to [2 rvir] in steps of [dr] at which
    [mean_enclosed_rho2rhocrit] is at or below [delta], the grid radius
    itself; [r200m delta] is the first one at or below [delta * Om z];
    whenever such a grid radius exists the method returns it, and every
    smaller grid radius is above the threshold; and [M200], [M200m] are
    [enclosedMass] at [r200], [r200m]. *)
Theorem r200_is_first_grid_radius_below
        (fl : np.rounding) (cosmo : Cosmology) (self : NFW.t) (delta : R) :
  NFW.physical cosmo self -> 0 < NFW.rho_scale self -> 0 < NFW.dr self ->
  let rs := np.arange fl (NFW.dr self) (2 * NFW.rvir cosmo self) (NFW.dr self) in
  let mean := NFW.mean_enclosed_rho2rhocrit cosmo self in
  let delta_m := delta * Om cosmo (NFW.z self) in
  NFW.r200 fl cosmo self (Some delta) = first_at_or_below mean delta rs
  /\ NFW.r200m fl cosmo self (Some delta) = first_at_or_below mean delta_m rs
  /\ ((exists r, In r rs /\ mean r <= delta) ->
      exists r, NFW.r200 fl cosmo self (Some delta) = Some r
                /\ In r rs /\ mean r <= delta
                /\ forall r', In r' rs -> r' < r -> delta < mean r')
  /\ ((exists r, In r rs /\ mean r <= delta_m) ->
      exists r, NFW.r200m fl cosmo self (Some delta) = Some r
                /\ In r rs /\ mean r <= delta_m
                /\ forall r', In r' rs -> r' < r -> delta_m < mean r')
  /\ NFW.M200 fl cosmo self (Some delta)
     = option_map (NFW.enclosedMass cosmo self)
                  (NFW.r200 fl cosmo self (Some delta))
  /\ NFW.M200m fl cosmo self (Some delta)
     = option_map (NFW.enclosedMass cosmo self)
                  (NFW.r200m fl cosmo self (Some delta)).
Proof.
  intros [_ [Hc [Hcrit _]]] Hrho Hdr rs mean delta_m.
  pose proof (overdensity.mean_decreasing_on_grid fl cosmo self
                Hc Hrho Hcrit Hdr) as Hdec.
  assert (Hfirst : forall thr,
             nth_error rs (np.searchsorted (np.neg (map mean rs)) (- thr))
             = first_at_or_below mean thr rs)
    by (intros thr; apply overdensity.search_first; exact Hdec).
  assert (Hret : forall thr,
             (exists r, In r rs /\ mean r <= thr) ->
             exists r,
               nth_error rs (np.searchsorted (np.neg (map mean rs)) (- thr))
               = Some r
               /\ In r rs /\ mean r <= thr
               /\ forall r', In r' rs -> r' < r -> thr < mean r').
  { intros thr Hex.
    destruct (overdensity.first_at_or_below_Some mean thr rs Hex)
      as [r [Hr [Hin Hle]]].
    rewrite <- Hfirst in Hr.
    exists r. repeat split; try assumption.
    intros r' Hin' Hlt.
    destruct (overdensity.search_rs_earlier fl cosmo self _ r r' Hdr Hr Hin' Hlt)
      as [i [Hi <-]].
    apply overdensity.search_earlier_above; assumption. }
  assert (Hm : - delta * Om cosmo (NFW.z self) = - delta_m)
    by (unfold delta_m; ring).
  unfold NFW.r200, NFW.r200_, NFW.r200m, NFW.r200m_. cbn [kwarg].
  fold rs mean. rewrite Hm.
  split; [apply Hfirst|]. split; [apply Hfirst|].
  split; [apply Hret|]. split; [apply Hret|].
  unfold NFW.M200, NFW.M200m, NFW.r200, NFW.r200_, NFW.r200m, NFW.r200m_.
  cbn [kwarg]. fold rs mean. rewrite Hm. split; reflexivity.
Qed.

Lemma r200_is_first_grid_radius_below_witness :
  let delta := NFW.mean_enclosed_rho2rhocrit Planck15_z0 coarse_halo
                 (NFW.dr coarse_halo) in
  exists r, NFW.r200 np.ideal Planck15_z0 coarse_halo (Some delta) = Some r.
Proof.
  intros delta.
  destruct (r200_is_first_grid_radius_below np.ideal Planck15_z0 coarse_halo delta
              init_facts.coarse_halo_physical
              init_facts.coarse_halo_rho_scale_pos
              init_facts.coarse_halo_dr_pos)
    as [_ [_ [Hret _]]].
  destruct Hret as [r [Hr _]].
  - exists (NFW.dr coarse_halo). split; [|unfold delta; lra].
    apply (overdensity.search_rs_head np.ideal Planck15_z0 coarse_halo).
    rewrite init_facts.coarse_halo_search_quotient. lra.
  - exists r. exact Hr.
Defined.

(** C8: when [delta] (for [r200], [r500]) or [delta * Om z] (for [r200m],
    [r500m]) is below [mean_enclosed_rho2rhocrit] at every radius of the
    grid, the search returns the length of the grid, one past its last
    index, and the indexing raises: the method has no result and nothing
    catches the error. *)
Theorem overdensity_search_without_crossing
        (fl : np.rounding) (cosmo : Cosmology) (self : NFW.t) (delta : R) :
  let rs := np.arange fl (NFW.dr self) (2 * NFW.rvir cosmo self) (NFW.dr self) in
  let mean := NFW.mean_enclosed_rho2rhocrit cosmo self in
  ((forall r, In r rs -> delta < mean r) ->
   np.searchsorted (np.neg (map mean rs)) (- delta) = length rs
   /\ NFW.r200 fl cosmo self (Some delta) = None
   /\ NFW.r500 fl cosmo self (Some delta) = None)
  /\ ((forall r, In r rs -> delta * Om cosmo (NFW.z self) < mean r) ->
      np.searchsorted (np.neg (map mean rs))
                      (- delta * Om cosmo (NFW.z self)) = length rs
      /\ NFW.r200m fl cosmo self (Some delta) = None
      /\ NFW.r500m fl cosmo self (Some delta) = None).
Proof.
  intros rs mean. split; intros Habove.
  - destruct (overdensity.search_out_of_range mean rs delta Habove)
      as [Hlen Hnone].
    split; [exact Hlen|]. split; exact Hnone.
  - replace (- delta * Om cosmo (NFW.z self))
      with (- (delta * Om cosmo (NFW.z self))) by ring.
    destruct (overdensity.search_out_of_range mean rs _ Habove)
      as [Hlen Hnone].
    split; [exact Hlen|].
    unfold NFW.r200m, NFW.r200m_, NFW.r500m, NFW.r500m_. cbn [kwarg].
    replace (- delta * Om cosmo (NFW.z self))
      with (- (delta * Om cosmo (NFW.z self))) by ring.
    split; exact Hnone.
Qed.

Lemma overdensity_search_without_crossing_witness :
  NFW.r200 np.ideal Planck15_z0 coarse_halo (Some 0) = None
  /\ NFW.r500 np.ideal Planck15_z0 coarse_halo (Some 0) = None.
Proof.
  apply (overdensity_search_without_crossing np.ideal Planck15_z0 coarse_halo 0).
  intros r Hr.
  destruct init_facts.coarse_halo_physical as [_ [Hc [Hcrit _]]].
  apply NFW_facts.mean_enclosed_pos; try assumption.
  - exact init_facts.coarse_halo_rho_scale_pos.
  - apply (overdensity.search_rs_pos np.ideal Planck15_z0 coarse_halo r
             init_facts.coarse_halo_dr_pos Hr).
Defined.

(** C10: [r500] and [r200] return the same radius for every explicit
    [delta], and so do [r500m] and [r200m]; the methods of a pair differ
    only by the default of [delta], 500 against 200. *)
Theorem r500_same_as_r200 (fl : np.rounding) (cosmo : Cosmology) (self : NFW.t) (delta : R) :
  NFW.r500 fl cosmo self (Some delta) = NFW.r200 fl cosmo self (Some delta)
  /\ NFW.r500m fl cosmo self (Some delta) = NFW.r200m fl cosmo self (Some delta)
  /\ NFW.r200 fl cosmo self None = NFW.r200 fl cosmo self (Some 200)
  /\ NFW.r500 fl cosmo self None = NFW.r200 fl cosmo self (Some 500)
  /\ NFW.r200m fl cosmo self None = NFW.r200m fl cosmo self (Some 200)
  /\ NFW.r500m fl cosmo self None = NFW.r200m fl cosmo self (Some 500).
Proof. repeat split. Qed.

(** ** The halo with a disk galaxy *)

Module galaxy_facts.

(** [np.e ** y] is the exponential of [y]. *)
Lemma e_power (y : R) : Rpower (exp 1) y = exp y.
Proof. unfold Rpower. rewrite ln_exp. f_equal. ring. Qed.

End galaxy_facts.

(** C5: for every [r > 0], [enclosedMass_galaxy r] is
    [Mgalaxy (1 - e^(-r/Rd) (Rd + r) / Rd)], the total [enclosedMass r] is the
    halo-only enclosed mass plus [enclosedMass_galaxy r], and the total minus
    the galaxy part is the halo-only enclosed mass. *)
Theorem enclosedMass_superposes_galaxy
        (cosmo : Cosmology) (self : NFW_withGalaxy.t) (r : R) :
  0 < r ->
  let Mgalaxy := NFW_withGalaxy.Mgalaxy self in
  let Rd := NFW_withGalaxy.Rd self in
  let halo := NFW_withGalaxy.halo self in
  NFW_withGalaxy.enclosedMass_galaxy self r
  = Mgalaxy * (1 - exp (- r / Rd) * (Rd + r) / Rd)
  /\ NFW_withGalaxy.enclosedMass cosmo self r
     = NFW.enclosedMass cosmo halo r
       + NFW_withGalaxy.enclosedMass_galaxy self r
  /\ NFW_withGalaxy.enclosedMass cosmo self r
     - NFW_withGalaxy.enclosedMass_galaxy self r
     = NFW.enclosedMass cosmo halo r.
Proof.
  intros Hr Mgalaxy Rd halo. split; [|split].
  - unfold NFW_withGalaxy.enclosedMass_galaxy. cbv zeta.
    rewrite galaxy_facts.e_power. fold Rd Mgalaxy.
    replace (- (r / Rd)) with (- r / Rd) by (unfold Rdiv; ring).
    ring.
  - reflexivity.
  - unfold NFW_withGalaxy.enclosedMass. fold halo. ring.
Qed.

Lemma enclosedMass_superposes_galaxy_witness :
  NFW_withGalaxy.enclosedMass Planck15_z0 coarse_halo_with_galaxy 1
  - NFW_withGalaxy.enclosedMass_galaxy coarse_halo_with_galaxy 1
  = NFW.enclosedMass Planck15_z0 (NFW_withGalaxy.halo coarse_halo_with_galaxy) 1.
Proof.
  apply (enclosedMass_superposes_galaxy Planck15_z0 coarse_halo_with_galaxy 1).
  lra.
Defined.

(** C6: on a halo with galaxy, [mean_enclosed_rho2rhocrit] is the value of
    the underlying halo, the overdensity radii are those of the underlying
    halo, and [M200], [M200m] are the halo-only [enclosedMass] at [r200],
    [r200m]: the galaxy is excluded. *)
Theorem overdensity_excludes_galaxy
        (fl : np.rounding) (cosmo : Cosmology) (self : NFW_withGalaxy.t) (r : R)
        (delta : option R) :
  let halo := NFW_withGalaxy.halo self in
  NFW_withGalaxy.mean_enclosed_rho2rhocrit cosmo self r
  = NFW.mean_enclosed_rho2rhocrit cosmo halo r
  /\ NFW_withGalaxy.r200 fl cosmo self delta = NFW.r200 fl cosmo halo delta
  /\ NFW_withGalaxy.r200m fl cosmo self delta = NFW.r200m fl cosmo halo delta
  /\ NFW_withGalaxy.M200 fl cosmo self delta
     = option_map (NFW.enclosedMass cosmo halo)
                  (NFW_withGalaxy.r200 fl cosmo self (Some (kwarg 200 delta)))
  /\ NFW_withGalaxy.M200m fl cosmo self delta
     = option_map (NFW.enclosedMass cosmo halo)
                  (NFW_withGalaxy.r200m fl cosmo self (Some (kwarg 200 delta)))
  /\ NFW_withGalaxy.M200 fl cosmo self delta = NFW.M200 fl cosmo halo delta
  /\ NFW_withGalaxy.M200m fl cosmo self delta = NFW.M200m fl cosmo halo delta.
Proof. repeat split. Qed.

(** C7 at [NFW_withGalaxy.dlnvc_dlnR]: a scalar radius raises, an array of
    fewer than 21 radii raises, and an array of 21 radii writes one line to
    standard output before the slopes are returned. *)
Theorem dlnvc_dlnR_prints_and_needs_21_radii
        (cosmo : Cosmology) (self : NFW_withGalaxy.t) (r : R) :
  NFW_withGalaxy.dlnvc_dlnR cosmo self (np.Scalar r)
  = NFW_withGalaxy.Raises
  /\ NFW_withGalaxy.dlnvc_dlnR cosmo self (np.Array (repeat r 20))
     = NFW_withGalaxy.Raises
  /\ exists printed slopes,
       NFW_withGalaxy.dlnvc_dlnR cosmo self (np.Array (repeat r 21))
       = NFW_withGalaxy.Returns [printed] (np.Array slopes)
       /\ length printed = 6%nat /\ length slopes = 21%nat.
Proof.
  split; [reflexivity|]. split; [reflexivity|].
  eexists. eexists. split; [reflexivity|]. split; reflexivity.
Qed.

(** ** The power law *)

(** C9: for every power law built with the default [R_phi0 = 10 Rvir] and
    every [r > 0]: [vc r = vc_Rvir (r/Rvir)^m]; [Phi r] is
    [-vc_Rvir^2/(2m) ((R_phi0/Rvir)^(2m) - (r/Rvir)^(2m))] when [m] is not 0
    and [-vc_Rvir^2 ln (R_phi0/r)] when [m = 0]; and [dlnvc_dlnR r = m]. *)
Theorem PowerLaw_closed_forms (m vc_Rvir Rvir r : R) :
  0 < r ->
  let self := PowerLaw.init m vc_Rvir Rvir None in
  let R_phi0 := 10 * Rvir in
  PowerLaw.R_phi0 self = R_phi0
  /\ PowerLaw.vc self r = vc_Rvir * Rpower (r / Rvir) m
  /\ (m <> 0 ->
      PowerLaw.Phi self r
      = - vc_Rvir ^ 2 / (2 * m)
        * (Rpower (R_phi0 / Rvir) (2 * m) - Rpower (r / Rvir) (2 * m)))
  /\ (m = 0 -> PowerLaw.Phi self r = - vc_Rvir ^ 2 * ln (R_phi0 / r))
  /\ PowerLaw.dlnvc_dlnR self r = m.
Proof.
  intros Hr self R_phi0.
  split; [reflexivity|]. split; [reflexivity|].
  split; [|split; [|reflexivity]]; intros Hm; unfold PowerLaw.Phi;
    cbn [PowerLaw.m PowerLaw.vc_Rvir PowerLaw.Rvir PowerLaw.R_phi0 self
         PowerLaw.init kwarg];
    destruct (Req_dec_T m 0); try reflexivity; contradiction.
Qed.

Lemma PowerLaw_closed_forms_witness :
  PowerLaw.vc (PowerLaw.init (1 / 10) 200 250 None) 25
  = 200 * Rpower (25 / 250) (1 / 10).
Proof.
  apply (PowerLaw_closed_forms (1 / 10) 200 250 25). lra.
Defined.

(** * Further properties of the potentials *)

(** ** More derivatives *)

Module calculus_more.
Import calculus.

Lemma D_exp (f : R -> R) (x lf : R) :
  derivable_pt_lim f x lf ->
  derivable_pt_lim (fun r => exp (f r)) x (exp (f x) * lf).
Proof.
  intros Hf.
  exact (derivable_pt_lim_comp f exp x lf (exp (f x)) Hf
           (derivable_pt_lim_exp (f x))).
Qed.

Lemma D_sqrt (f : R -> R) (x lf : R) :
  derivable_pt_lim f x lf -> 0 < f x ->
  derivable_pt_lim (fun r => sqrt (f r)) x (/ (2 * sqrt (f x)) * lf).
Proof.
  intros Hf Hpos.
  exact (derivable_pt_lim_comp f sqrt x lf _ Hf
           (derivable_pt_lim_sqrt (f x) Hpos)).
Qed.

(** A power with a fixed exponent. *)
Lemma D_Rpower (f : R -> R) (a x lf : R) :
  derivable_pt_lim f x lf -> 0 < f x ->
  derivable_pt_lim (fun r => Rpower (f r) a) x
                   (a * Rpower (f x) a / f x * lf).
Proof.
  intros Hf Hpos. unfold Rpower.
  eapply deriv_eq.
  - apply (D_exp (fun r => a * ln (f r)) x).
    apply (D_mult (fun _ => a) (fun r => ln (f r)) x);
      [apply D_const|apply D_ln; eassumption].
  - field. lra.
Qed.

(** A power with a fixed base. *)
Lemma D_Rpower_exponent (a : R) (f : R -> R) (x lf : R) :
  derivable_pt_lim f x lf ->
  derivable_pt_lim (fun m => Rpower a (f m)) x
                   (Rpower a (f x) * ln a * lf).
Proof.
  intros Hf. unfold Rpower.
  eapply deriv_eq.
  - apply (D_exp (fun m => f m * ln a) x).
    apply (D_mult f (fun _ => ln a) x); [exact Hf|apply D_const].
  - ring.
Qed.

(** The logarithmic slope d ln f / d ln r from the derivative of [f]. *)
Lemma log_slope (f : R -> R) (r l : R) :
  0 < r -> 0 < f r ->
  derivable_pt_lim f r (f r / r * l) ->
  derivable_pt_lim (fun u => ln (f (exp u))) (ln r) l.
Proof.
  intros Hr Hf Hd.
  rewrite <- (exp_ln r Hr) in Hd at 1.
  eapply deriv_eq.
  - apply (D_ln (fun u => f (exp u)) (ln r)).
    + apply (D_after_exp f (ln r)). exact Hd.
    + rewrite exp_ln by exact Hr. exact Hf.
  - rewrite exp_ln by exact Hr. field. lra.
Qed.

End calculus_more.

(** ** The power-law potentials *)

Module PowerLaw_facts.
Import calculus calculus_more.

Lemma powerlaw_vc_pos (self : PowerLaw.t) (r : R) :
  0 < PowerLaw.vc_Rvir self -> 0 < PowerLaw.vc self r.
Proof.
  intros Hv. unfold PowerLaw.vc, Rpower.
  apply Rmult_lt_0_compat; [exact Hv|apply exp_pos].
Qed.

Lemma powerlaw_vc_deriv (self : PowerLaw.t) (r : R) :
  0 < PowerLaw.Rvir self -> 0 < r ->
  derivable_pt_lim (PowerLaw.vc self) r
                   (PowerLaw.vc self r / r * PowerLaw.m self).
Proof.
  intros HR Hr. unfold PowerLaw.vc.
  assert (Hx : 0 < r / PowerLaw.Rvir self)
    by (apply Rdiv_lt_0_compat; assumption).
  eapply deriv_eq.
  - apply (D_mult (fun _ => PowerLaw.vc_Rvir self)
                  (fun r => Rpower (r / PowerLaw.Rvir self) (PowerLaw.m self))
                  r); [apply D_const|].
    apply (D_Rpower (fun r => r / PowerLaw.Rvir self)); [|exact Hx].
    apply (D_div (fun r => r) (fun _ => PowerLaw.Rvir self) r);
      [apply D_id|apply D_const|lra].
  - unfold Rsqr. field. lra.
Qed.

(** vc^2 is the power law of exponent 2m. *)
Lemma powerlaw_vc_squared (self : PowerLaw.t) (r : R) :
  PowerLaw.vc self r ^ 2
  = PowerLaw.vc_Rvir self ^ 2
    * Rpower (r / PowerLaw.Rvir self) (2 * PowerLaw.m self).
Proof.
  unfold PowerLaw.vc.
  replace (2 * PowerLaw.m self) with (PowerLaw.m self + PowerLaw.m self)
    by ring.
  rewrite Rpower_plus. ring.
Qed.

Lemma powerlaw_Phi_deriv (self : PowerLaw.t) (r : R) :
  0 < PowerLaw.Rvir self -> 0 < PowerLaw.R_phi0 self -> 0 < r ->
  derivable_pt_lim (PowerLaw.Phi self) r (PowerLaw.vc self r ^ 2 / r).
Proof.
  intros HR H0 Hr. rewrite powerlaw_vc_squared.
  assert (Hx : 0 < r / PowerLaw.Rvir self)
    by (apply Rdiv_lt_0_compat; assumption).
  assert (Hy : 0 < PowerLaw.R_phi0 self / r)
    by (apply Rdiv_lt_0_compat; assumption).
  unfold PowerLaw.Phi. destruct (Req_dec_T (PowerLaw.m self) 0) as [Hm|Hm].
  - rewrite Hm, Rmult_0_r, Rpower_O by exact Hx.
    eapply deriv_eq.
    + apply (D_mult (fun _ => - PowerLaw.vc_Rvir self ^ 2)
                    (fun r => ln (PowerLaw.R_phi0 self / r)) r);
        [apply D_const|].
      apply (D_ln (fun r => PowerLaw.R_phi0 self / r)); [|exact Hy].
      apply (D_div (fun _ => PowerLaw.R_phi0 self) (fun r => r) r);
        [apply D_const|apply D_id|lra].
    + unfold Rsqr. field. lra.
  - eapply deriv_eq.
    + apply (D_mult
               (fun _ => - PowerLaw.vc_Rvir self ^ 2 / (2 * PowerLaw.m self))
               (fun r => Rpower (PowerLaw.R_phi0 self / PowerLaw.Rvir self)
                                (2 * PowerLaw.m self)
                         - Rpower (r / PowerLaw.Rvir self)
                                  (2 * PowerLaw.m self)) r);
        [apply D_const|].
      apply D_minus; [apply D_const|].
      apply (D_Rpower (fun r => r / PowerLaw.Rvir self)); [|exact Hx].
      apply (D_div (fun r => r) (fun _ => PowerLaw.Rvir self) r);
        [apply D_id|apply D_const|lra].
    + unfold Rsqr. field. repeat split; lra.
Qed.

End PowerLaw_facts.

(** X1: for a power law with [vc_Rvir > 0] and [Rvir > 0], the constant
    returned by [dlnvc_dlnR] is the derivative of [ln vc] with respect to
    [ln r] at every [r > 0]. *)
Theorem PowerLaw_slope_is_logarithmic_derivative (self : PowerLaw.t) (r : R) :
  0 < PowerLaw.vc_Rvir self -> 0 < PowerLaw.Rvir self -> 0 < r ->
  derivable_pt_lim (fun u => ln (PowerLaw.vc self (exp u))) (ln r)
                   (PowerLaw.dlnvc_dlnR self r).
Proof.
  intros Hv HR Hr. apply calculus_more.log_slope.
  - exact Hr.
  - now apply PowerLaw_facts.powerlaw_vc_pos.
  - now apply PowerLaw_facts.powerlaw_vc_deriv.
Qed.

Lemma PowerLaw_slope_is_logarithmic_derivative_witness :
  derivable_pt_lim (fun u => ln (PowerLaw.vc sample_power_law (exp u)))
                   (ln 25) (1 / 10).
Proof.
  apply (PowerLaw_slope_is_logarithmic_derivative sample_power_law 25);
    simpl; lra.
Defined.

(** X2: for [Rvir > 0], [R_phi0 > 0] and [r > 0], in both branches of
    [Phi] (slope zero or not), the derivative of [Phi] at [r] is
    [vc r ^ 2 / r]: the potential and the rotation curve describe the same
    gravitational field. *)
Theorem PowerLaw_Phi_gradient (self : PowerLaw.t) (r : R) :
  0 < PowerLaw.Rvir self -> 0 < PowerLaw.R_phi0 self -> 0 < r ->
  derivable_pt_lim (PowerLaw.Phi self) r (PowerLaw.vc self r ^ 2 / r).
Proof. apply PowerLaw_facts.powerlaw_Phi_deriv. Qed.

Lemma PowerLaw_Phi_gradient_witness :
  derivable_pt_lim (PowerLaw.Phi sample_power_law) 25
                   (PowerLaw.vc sample_power_law 25 ^ 2 / 25).
Proof.
  apply (PowerLaw_Phi_gradient sample_power_law 25); simpl; lra.
Defined.

(** X3: the power law is normalized as its arguments say: [vc] at [Rvir]
    is [vc_Rvir], and [Phi] vanishes at [R_phi0], whatever the slope. *)
Theorem PowerLaw_normalization (self : PowerLaw.t) :
  PowerLaw.Rvir self <> 0 -> PowerLaw.R_phi0 self <> 0 ->
  PowerLaw.vc self (PowerLaw.Rvir self) = PowerLaw.vc_Rvir self
  /\ PowerLaw.Phi self (PowerLaw.R_phi0 self) = 0.
Proof.
  intros HR H0. split.
  - unfold PowerLaw.vc, Rpower.
    replace (PowerLaw.Rvir self / PowerLaw.Rvir self) with 1 by (field; lra).
    rewrite ln_1, Rmult_0_r, exp_0. ring.
  - unfold PowerLaw.Phi. destruct (Req_dec_T (PowerLaw.m self) 0).
    + replace (PowerLaw.R_phi0 self / PowerLaw.R_phi0 self) with 1
        by (field; lra).
      rewrite ln_1. ring.
    + ring.
Qed.

Lemma PowerLaw_normalization_witness :
  PowerLaw.vc sample_power_law 250 = 200
  /\ PowerLaw.Phi sample_power_law (10 * 250) = 0.
Proof.
  apply (PowerLaw_normalization sample_power_law); simpl; lra.
Defined.

(** X4: the two branches of [Phi] agree in the limit: for fixed
    [vc_Rvir], [Rvir > 0], [R_phi0 > 0] and [r > 0], the value of [Phi] for a
    slope [m <> 0] tends to the value of the [m = 0] branch as [m] tends to
    0. *)
Theorem PowerLaw_Phi_continuous_at_flat_slope (vc_Rvir Rvir R_phi0 r : R) :
  0 < Rvir -> 0 < R_phi0 -> 0 < r ->
  forall eps : R, 0 < eps ->
  exists delta : R, 0 < delta /\
    forall m : R, m <> 0 -> Rabs m < delta ->
      Rabs (PowerLaw.Phi (PowerLaw.mk m vc_Rvir Rvir R_phi0) r
            - PowerLaw.Phi (PowerLaw.mk 0 vc_Rvir Rvir R_phi0) r) < eps.
Proof.
  intros HR H0 Hr eps Heps.
  set (a := R_phi0 / Rvir). set (b := r / Rvir).
  assert (Ha : 0 < a) by (apply Rdiv_lt_0_compat; assumption).
  assert (Hb : 0 < b) by (apply Rdiv_lt_0_compat; assumption).
  set (N := fun m => - vc_Rvir ^ 2 / 2 * (Rpower a (2 * m) - Rpower b (2 * m))).
  assert (HN : derivable_pt_lim N 0 (- vc_Rvir ^ 2 * ln (R_phi0 / r))).
  { unfold N. eapply calculus.deriv_eq.
    - apply (calculus.D_mult (fun _ => - vc_Rvir ^ 2 / 2)
               (fun m => Rpower a (2 * m) - Rpower b (2 * m)) 0);
        [apply calculus.D_const|].
      apply calculus.D_minus;
        apply (calculus_more.D_Rpower_exponent _ (fun m => 2 * m) 0 2);
        (eapply calculus.deriv_eq;
         [apply (calculus.D_mult (fun _ => 2) (fun m => m) 0);
          [apply calculus.D_const|apply calculus.D_id]|ring]).
    - rewrite Rmult_0_r, !Rpower_O by assumption.
      replace (R_phi0 / r) with (a * / b) by (unfold a, b; field; lra).
      rewrite ln_mult, ln_Rinv; try assumption.
      + field.
      + now apply Rinv_0_lt_compat. }
  destruct (HN eps Heps) as [delta Hdelta].
  exists delta. split; [apply cond_pos|].
  intros m Hm Hlt. specialize (Hdelta m Hm Hlt).
  unfold PowerLaw.Phi. cbn [PowerLaw.m PowerLaw.vc_Rvir PowerLaw.Rvir
                            PowerLaw.R_phi0].
  destruct (Req_dec_T m 0) as [|_]; [contradiction|].
  destruct (Req_dec_T 0 0) as [_|Hne]; [|contradiction].
  fold a b.
  replace (- vc_Rvir ^ 2 / (2 * m) * (Rpower a (2 * m) - Rpower b (2 * m)))
    with ((N (0 + m) - N 0) / m); [exact Hdelta|].
  unfold N. rewrite Rplus_0_l, Rmult_0_r, !Rpower_O by assumption.
  field. exact Hm.
Qed.

Lemma PowerLaw_Phi_continuous_at_flat_slope_witness :
  exists delta : R, 0 < delta /\
    forall m : R, m <> 0 -> Rabs m < delta ->
      Rabs (PowerLaw.Phi (PowerLaw.mk m 200 250 2500) 250
            - PowerLaw.Phi (PowerLaw.mk 0 200 250 2500) 250) < 1.
Proof.
  apply (PowerLaw_Phi_continuous_at_flat_slope 200 250 2500 250); lra.
Defined.

Module AngularMomentum_facts.
Import calculus calculus_more.

Section Fixed.

Variable self : PowerLaw_with_AngularMomentum.t.

Let Rc : R := PowerLaw_with_AngularMomentum.Rcirc self.

(** The factor under the square root lies strictly between 0 and 1 outside
    the circularization radius. *)
Lemma support_factor_bounds (r : R) :
  0 < Rc -> Rc < r -> 0 < 1 - (Rc / r) ^ 2 < 1.
Proof.
  intros Hc Hr.
  assert (Hq : 0 < Rc / r) by (apply Rdiv_lt_0_compat; lra).
  assert (Hq1 : Rc / r < 1).
  { apply (Rmult_lt_reg_r r); [lra|].
    replace (Rc / r * r) with Rc by (field; lra). lra. }
  nra.
Qed.

Lemma supported_vc_deriv (r : R) :
  0 < PowerLaw.Rvir (PowerLaw_with_AngularMomentum.base self) ->
  0 < Rc -> Rc < r ->
  derivable_pt_lim (PowerLaw_with_AngularMomentum.vc self) r
    (PowerLaw_with_AngularMomentum.vc self r / r
     * PowerLaw_with_AngularMomentum.dlnvc_dlnR self r).
Proof.
  intros HR Hc Hr.
  destruct (support_factor_bounds r Hc Hr) as [Hw _].
  unfold PowerLaw_with_AngularMomentum.vc,
    PowerLaw_with_AngularMomentum.dlnvc_dlnR. cbv zeta. fold Rc.
  set (b := PowerLaw_with_AngularMomentum.base self) in *.
  pose proof (sqrt_lt_R0 _ Hw) as HS.
  pose proof (sqrt_sqrt (1 - (Rc / r) ^ 2) (Rlt_le _ _ Hw)) as HSS.
  eapply deriv_eq.
  - apply (D_mult (PowerLaw.vc b) (fun r => sqrt (1 - (Rc / r) ^ 2)) r).
    + apply PowerLaw_facts.powerlaw_vc_deriv; [exact HR|lra].
    + apply (D_sqrt (fun r => 1 - (Rc / r) ^ 2)); [|exact Hw].
      apply (D_minus (fun _ => 1) (fun r => (Rc / r) ^ 2) r);
        [apply D_const|].
      apply (D_pow (fun r => Rc / r) 2 r).
      apply (D_div (fun _ => Rc) (fun r => r) r);
        [apply D_const|apply D_id|lra].
  - unfold PowerLaw.dlnvc_dlnR.
    set (S := sqrt (1 - (Rc / r) ^ 2)) in *.
    set (v := PowerLaw.vc b r). set (m := PowerLaw.m b).
    assert (Hne : (r / Rc) ^ 2 - 1 <> 0).
    { assert (1 < r / Rc).
      { apply (Rmult_lt_reg_r Rc); [lra|].
        replace (r / Rc * Rc) with r by (field; lra). lra. }
      nra. }
    apply (Rmult_eq_reg_r S); [|lra].
    transitivity (v / r * m * (S * S) + v * (Rc ^ 2 / r ^ 3)).
    + simpl. unfold Rsqr. field. lra.
    + assert (Hne' : r ^ 2 - Rc ^ 2 <> 0) by nra.
      transitivity (v * (S * S) / r * (m + / ((r / Rc) ^ 2 - 1))).
      * rewrite HSS. field. repeat split; lra.
      * field. repeat split; lra.
Qed.

End Fixed.

End AngularMomentum_facts.

(** X5: with angular momentum, for [Rcirc < r] (and [vc_Rvir], [Rvir],
    [Rcirc] positive), [dlnvc_dlnR r = m + 1 / ((r/Rcirc)^2 - 1)] is the
    derivative of [ln vc] with respect to [ln r]. *)
Theorem AngularMomentum_slope_is_logarithmic_derivative
        (self : PowerLaw_with_AngularMomentum.t) (r : R) :
  let base := PowerLaw_with_AngularMomentum.base self in
  let Rcirc := PowerLaw_with_AngularMomentum.Rcirc self in
  0 < PowerLaw.vc_Rvir base -> 0 < PowerLaw.Rvir base ->
  0 < Rcirc -> Rcirc < r ->
  derivable_pt_lim
    (fun u => ln (PowerLaw_with_AngularMomentum.vc self (exp u))) (ln r)
    (PowerLaw_with_AngularMomentum.dlnvc_dlnR self r).
Proof.
  intros base Rcirc Hv HR Hc Hr. apply calculus_more.log_slope.
  - lra.
  - unfold PowerLaw_with_AngularMomentum.vc. cbv zeta.
    apply Rmult_lt_0_compat.
    + now apply PowerLaw_facts.powerlaw_vc_pos.
    + apply sqrt_lt_R0.
      now apply (AngularMomentum_facts.support_factor_bounds self r).
  - now apply AngularMomentum_facts.supported_vc_deriv.
Qed.

Lemma AngularMomentum_slope_is_logarithmic_derivative_witness :
  derivable_pt_lim
    (fun u => ln (PowerLaw_with_AngularMomentum.vc sample_power_law_AM
                    (exp u)))
    (ln 25)
    (PowerLaw_with_AngularMomentum.dlnvc_dlnR sample_power_law_AM 25).
Proof.
  apply (AngularMomentum_slope_is_logarithmic_derivative
           sample_power_law_AM 25); simpl; lra.
Defined.



(** ** More on the grids *)

Module grid_facts.
Import np_facts.

Section Rounded.

Variable fl : np.rounding.

(** The index of a grid point is below the computed quotient. *)
Lemma arange_index_below_quotient (start stop step : R) (i : nat) :
  (i < length (np.arange fl start stop step))%nat ->
  INR i < np.quotient fl start stop step.
Proof.
  intros Hi. rewrite arange_length in Hi.
  set (x := np.quotient fl start stop step) in *.
  destruct (ceil_bounds x) as [Hlo _].
  assert (Hi' : INR i <= IZR (np.ceil x) - 1).
  { rewrite INR_IZR_INZ, <- minus_IZR. apply IZR_le. lia. }
  lra.
Qed.

(** A grid that starts at its step can reach [stop], and pass it by the
    rounding of its length, but no further. *)
Lemma arange_near_stop (stop step r : R) :
  0 < step -> 0 < stop -> In r (np.arange fl step stop step) ->
  r < stop * (1 + 2 * np.tol).
Proof.
  intros Hstep Hstop Hin.
  destruct (arange_In _ _ _ _ _ Hin) as [i [Hi ->]].
  pose proof (arange_index_below_quotient _ _ _ _ Hi) as Hq.
  destruct (quotient_bounds fl step stop step) as [_ Hup].
  cbv zeta in Hup.
  destruct tol_bounds as [Ht0 Ht1].
  pose proof (pos_INR i) as Hi0.
  set (s := stop / step).
  assert (Hs : 0 < s) by (apply Rdiv_lt_0_compat; assumption).
  replace ((stop - step) / step) with (s - 1) in Hup
    by (unfold s; field; lra).
  assert (Hgoal : INR i + 1 < s * (1 + 2 * np.tol)).
  { destruct (Rle_lt_dec 1 s) as [Hs1|Hs1].
    - rewrite Rabs_right in Hup by lra. nra.
    - rewrite Rabs_left in Hup by lra. nra. }
  apply (Rmult_lt_compat_r step) in Hgoal; [|exact Hstep].
  replace (s * (1 + 2 * np.tol) * step) with (stop * (1 + 2 * np.tol))
    in Hgoal by (unfold s; field; lra).
  lra.
Qed.

(** A grid that starts at its step holds the multiples k * step, from
    k = 1 to the number of its points. *)
Lemma arange_multiples (stop step r : R) :
  In r (np.arange fl step stop step) ->
  exists k : nat,
    (1 <= k <= length (np.arange fl step stop step))%nat
    /\ r = INR k * step.
Proof.
  intros Hin. destruct (arange_In _ _ _ _ _ Hin) as [i [Hi ->]].
  exists (S i). split; [lia|]. rewrite S_INR. ring.
Qed.

End Rounded.

End grid_facts.

(** ** More on the NFW profile *)

Module NFW_more.
Import calculus calculus_more nfw_analysis.

Section WithCosmology.

Context (cosmo : Cosmology) (self : NFW.t).

Hypothesis cvir_pos : 0 < NFW.cvir self.

Let rs : R := NFW.r_scale cosmo self.

Lemma rs_pos : 0 < rs.
Proof. apply NFW_facts.r_scale_pos. exact cvir_pos. Qed.

Lemma enclosedMass_deriv (r : R) :
  0 < r ->
  derivable_pt_lim (NFW.enclosedMass cosmo self) r
                   (4 * PI * r ^ 2 * NFW.rho cosmo self r).
Proof.
  intros Hr. pose proof rs_pos as Hrs.
  unfold NFW.enclosedMass, NFW.rho, NFW.rho2rho_scale. fold rs.
  eapply deriv_eq.
  - apply (D_mult (fun _ => 16 * PI * NFW.rho_scale self * rs ^ 3)
                  (fun r => ln (1 + r / rs) - / (rs / r + 1)) r);
      [apply D_const|].
    apply bracket_deriv; assumption.
  - field. repeat split; lra.
Qed.

Lemma nfw_Phi_deriv (r : R) :
  0 < r ->
  derivable_pt_lim (NFW.Phi cosmo self) r (NFW.g cosmo self r).
Proof.
  intros Hr. pose proof rs_pos as Hrs.
  assert (Hx : 0 < 1 + r / rs).
  { assert (0 < r / rs) by (apply Rdiv_lt_0_compat; lra). lra. }
  unfold NFW.Phi, NFW.g, NFW.g_, NFW.enclosedMass. cbv zeta. fold rs.
  eapply deriv_eq.
  - apply D_opp.
    apply (D_mult
             (fun r => 16 * PI * G cosmo * NFW.rho_scale self * rs ^ 3 / r)
             (fun r => ln (1 + r / rs)) r).
    + apply (D_div
               (fun _ => 16 * PI * G cosmo * NFW.rho_scale self * rs ^ 3)
               (fun r => r) r); [apply D_const|apply D_id|lra].
    + apply (D_ln (fun r => 1 + r / rs)); [|exact Hx].
      apply (D_plus (fun _ => 1) (fun r => r / rs) r); [apply D_const|].
      apply (D_div (fun r => r) (fun _ => rs) r);
        [apply D_id|apply D_const|lra].
  - unfold Rsqr. set (B := ln (1 + r / rs)). field. repeat split; lra.
Qed.

Lemma rho2rho_scale_decreasing (r1 r2 : R) :
  0 < r1 -> r1 < r2 ->
  NFW.rho2rho_scale cosmo self r2 < NFW.rho2rho_scale cosmo self r1.
Proof.
  intros Hr1 Hlt. pose proof rs_pos as Hrs.
  unfold NFW.rho2rho_scale. fold rs.
  assert (H1 : 0 < r1 / rs) by (apply Rdiv_lt_0_compat; lra).
  assert (H12 : r1 / rs < r2 / rs).
  { unfold Rdiv. apply Rmult_lt_compat_r; [|exact Hlt].
    apply Rinv_0_lt_compat. exact Hrs. }
  set (x1 := r1 / rs) in *. set (x2 := r2 / rs) in *.
  assert (Hd1 : 0 < x1 * (1 + x1) ^ 2) by
    (apply Rmult_lt_0_compat; [lra|apply pow_lt; lra]).
  assert (Hd : x1 * (1 + x1) ^ 2 < x2 * (1 + x2) ^ 2).
  { assert ((1 + x1) ^ 2 < (1 + x2) ^ 2) by nra.
    assert (0 < (1 + x1) ^ 2) by (apply pow_lt; lra). nra. }
  unfold Rdiv. apply Rmult_lt_compat_l; [lra|].
  apply Rinv_0_lt_contravar; assumption.
Qed.

End WithCosmology.

(** The cube of the virial radius. *)
Lemma rvir_cubed (cosmo : Cosmology) (self : NFW.t) :
  NFW.physical cosmo self ->
  NFW.rvir cosmo self ^ 3
  = NFW.Mvir self
    / (4 / 3 * PI * NFW.Delta_c cosmo self
       * critical_density cosmo (NFW.z self)).
Proof.
  intros [HM [Hc [Hcrit HD]]].
  pose proof PI_RGT_0 as Hpi.
  set (d := 4 / 3 * PI * NFW.Delta_c cosmo self
            * critical_density cosmo (NFW.z self)).
  assert (Hd : 0 < d).
  { unfold d. assert (0 < 4 / 3 * PI) by lra.
    apply Rmult_lt_0_compat; [|exact Hcrit].
    apply Rmult_lt_0_compat; assumption. }
  assert (Hx : 0 < NFW.Mvir self / d) by (apply Rdiv_lt_0_compat; lra).
  unfold NFW.rvir. fold d. unfold Rpower.
  set (t := 1 / 3 * ln (NFW.Mvir self / d)).
  replace (exp t ^ 3) with (exp (t + (t + t)))
    by (rewrite !exp_plus; ring).
  replace (t + (t + t)) with (ln (NFW.Mvir self / d)) by (unfold t; field).
  now rewrite exp_ln.
Qed.

End NFW_more.

(** X7: for physical inputs, [rvir] solves
    [Mvir = 4/3 pi Delta_c rho_crit rvir^3], and [cvir * r_scale = rvir]. *)
Theorem rvir_solves_virial_relation (cosmo : Cosmology) (self : NFW.t) :
  NFW.physical cosmo self ->
  4 / 3 * PI * NFW.Delta_c cosmo self * critical_density cosmo (NFW.z self)
  * NFW.rvir cosmo self ^ 3 = NFW.Mvir self
  /\ NFW.cvir self * NFW.r_scale cosmo self = NFW.rvir cosmo self.
Proof.
  intros Hphys. pose proof Hphys as [HM [Hc [Hcrit HD]]].
  pose proof PI_RGT_0 as Hpi.
  split.
  - rewrite (NFW_more.rvir_cubed cosmo self Hphys).
    assert (0 < 4 / 3 * PI * NFW.Delta_c cosmo self).
    { assert (0 < 4 / 3 * PI) by lra.
      apply Rmult_lt_0_compat; assumption. }
    field. split; [lra|].
    assert (0 < PI * NFW.Delta_c cosmo self)
      by (apply Rmult_lt_0_compat; assumption).
    nra.
  - unfold NFW.r_scale. field. lra.
Qed.

Lemma rvir_solves_virial_relation_witness :
  NFW.cvir coarse_halo * NFW.r_scale Planck15_z0 coarse_halo
  = NFW.rvir Planck15_z0 coarse_halo.
Proof.
  apply (rvir_solves_virial_relation Planck15_z0 coarse_halo).
  exact init_facts.coarse_halo_physical.
Defined.

(** X8: the closed-form [enclosedMass] grows by shells of the density
    [rho]: its derivative at [r > 0] is [4 pi r^2 rho(r)]. *)
Theorem enclosedMass_grows_by_shells
        (cosmo : Cosmology) (self : NFW.t) (r : R) :
  0 < NFW.cvir self -> 0 < r ->
  derivable_pt_lim (NFW.enclosedMass cosmo self) r
                   (4 * PI * r ^ 2 * NFW.rho cosmo self r).
Proof. intros Hc Hr. now apply NFW_more.enclosedMass_deriv. Qed.

Lemma enclosedMass_grows_by_shells_witness :
  derivable_pt_lim (NFW.enclosedMass Planck15_z0 coarse_halo) 1
                   (4 * PI * 1 ^ 2 * NFW.rho Planck15_z0 coarse_halo 1).
Proof.
  apply (enclosedMass_grows_by_shells Planck15_z0 coarse_halo 1);
    simpl; lra.
Defined.

(** X9: on a physical halo and for [r > 0], the derivative of [Phi] is
    the acceleration [g r]; [g r = vc r ^ 2 / r]; and [t_ff] is the time of
    fall over [r] under the constant acceleration [g r]:
    [1/2 g t_ff^2 = r]. *)
Theorem NFW_Phi_gradient_is_g (cosmo : Cosmology) (self : NFW.t) (r : R) :
  NFW.physical cosmo self -> 0 < NFW.rho_scale self -> 0 < G cosmo ->
  0 < r ->
  derivable_pt_lim (NFW.Phi cosmo self) r (NFW.g cosmo self r)
  /\ NFW.g cosmo self r = NFW.vc cosmo self r ^ 2 / r
  /\ 1 / 2 * NFW.g cosmo self r * NFW.t_ff cosmo self r ^ 2 = r.
Proof.
  intros [_ [Hc _]] Hrho HG Hr.
  pose proof (slope.vc2_pos cosmo self Hc Hrho HG r Hr) as Hu.
  assert (Hvc2 : NFW.vc cosmo self r ^ 2
                 = G cosmo * NFW.enclosedMass cosmo self r / r).
  { unfold NFW.vc, NFW.vc_. cbv zeta. apply pow2_sqrt. lra. }
  split; [now apply NFW_more.nfw_Phi_deriv|]. split.
  - rewrite Hvc2. unfold NFW.g, NFW.g_. cbv zeta. field. lra.
  - unfold NFW.t_ff, NFW.t_ff_.
    fold (NFW.vc cosmo self r).
    pose proof (slope.vc_pos cosmo self Hc Hrho HG r Hr) as Hv.
    replace ((sqrt 2 * r / NFW.vc cosmo self r) ^ 2)
      with (sqrt 2 ^ 2 * r ^ 2 / NFW.vc cosmo self r ^ 2)
      by (field; lra).
    rewrite pow2_sqrt by lra. rewrite Hvc2.
    unfold NFW.g, NFW.g_. cbv zeta.
    pose proof (NFW_facts.enclosedMass_pos cosmo self r Hc Hrho Hr) as HM.
    set (M := NFW.enclosedMass cosmo self r) in *.
    field. repeat split; lra.
Qed.

Lemma NFW_Phi_gradient_is_g_witness :
  derivable_pt_lim (NFW.Phi Planck15_z0 coarse_halo) 1
                   (NFW.g Planck15_z0 coarse_halo 1).
Proof.
  apply (NFW_Phi_gradient_is_g Planck15_z0 coarse_halo 1).
  - exact init_facts.coarse_halo_physical.
  - exact init_facts.coarse_halo_rho_scale_pos.
  - simpl. lra.
  - lra.
Defined.

(** X10: with [cvir > 0] and [rho_scale > 0], [enclosedMass] is positive
    and strictly increasing on [r > 0]. *)
Theorem enclosedMass_positive_increasing
        (cosmo : Cosmology) (self : NFW.t) (r1 r2 : R) :
  0 < NFW.cvir self -> 0 < NFW.rho_scale self -> 0 < r1 -> r1 < r2 ->
  0 < NFW.enclosedMass cosmo self r1 < NFW.enclosedMass cosmo self r2.
Proof.
  intros Hc Hrho Hr1 Hlt. split.
  - now apply NFW_facts.enclosedMass_pos.
  - destruct (MVT_cor2 (NFW.enclosedMass cosmo self)
                (fun r => 4 * PI * r ^ 2 * NFW.rho cosmo self r)
                r1 r2 Hlt) as [c [Heq Hcin]].
    + intros c Hcin. apply NFW_more.enclosedMass_deriv; [exact Hc|lra].
    + assert (Hc0 : 0 < c) by lra.
      pose proof (NFW_facts.rho2rho_scale_pos cosmo self c Hc Hc0) as Hf.
      pose proof PI_RGT_0 as Hpi.
      assert (0 < 4 * PI * c ^ 2 * NFW.rho cosmo self c).
      { unfold NFW.rho.
        assert (0 < c ^ 2) by (apply pow_lt; lra).
        assert (0 < NFW.rho_scale self * NFW.rho2rho_scale cosmo self c)
          by (apply Rmult_lt_0_compat; assumption).
        assert (0 < 4 * PI * c ^ 2) by nra.
        apply Rmult_lt_0_compat; assumption. }
      nra.
Qed.

Lemma enclosedMass_positive_increasing_witness :
  0 < NFW.enclosedMass Planck15_z0 coarse_halo 1
    < NFW.enclosedMass Planck15_z0 coarse_halo 2.
Proof.
  apply (enclosedMass_positive_increasing Planck15_z0 coarse_halo 1 2);
    try (simpl; lra).
  exact init_facts.coarse_halo_rho_scale_pos.
Defined.

(** X11: with [cvir > 0] and [rho_scale > 0], [rho] equals [rho_scale] at
    the scale radius, is positive, and strictly decreases with [r]. *)
Theorem rho_profile_shape (cosmo : Cosmology) (self : NFW.t) (r1 r2 : R) :
  0 < NFW.cvir self -> 0 < NFW.rho_scale self -> 0 < r1 -> r1 < r2 ->
  NFW.rho cosmo self (NFW.r_scale cosmo self) = NFW.rho_scale self
  /\ 0 < NFW.rho cosmo self r2 < NFW.rho cosmo self r1.
Proof.
  intros Hc Hrho Hr1 Hlt.
  pose proof (NFW_facts.r_scale_pos cosmo self Hc) as Hrs.
  split.
  - unfold NFW.rho, NFW.rho2rho_scale. field. lra.
  - unfold NFW.rho. split.
    + apply Rmult_lt_0_compat; [exact Hrho|].
      apply NFW_facts.rho2rho_scale_pos; [exact Hc|lra].
    + apply Rmult_lt_compat_l; [exact Hrho|].
      now apply NFW_more.rho2rho_scale_decreasing.
Qed.

Lemma rho_profile_shape_witness :
  NFW.rho Planck15_z0 coarse_halo (NFW.r_scale Planck15_z0 coarse_halo)
  = NFW.rho_scale coarse_halo.
Proof.
  apply (rho_profile_shape Planck15_z0 coarse_halo 1 2);
    try (simpl; lra).
  exact init_facts.coarse_halo_rho_scale_pos.
Defined.

(** X12: whatever the class of the object and the value of [delta], a
    radius returned by [r200], [r500], [r200m] or [r500m] is a grid radius:
    an integer multiple [k dr] with [k >= 1], at least [dr].  It can be
    [2 rvir] itself, and pass it by the rounding of the length of the grid,
    but it stays below [2 rvir (1 + 2 tol)]. *)
Theorem overdensity_radius_on_grid
        (fl : np.rounding) (cosmo : Cosmology) (mean : R -> R) (self : NFW.t)
        (delta : option R) (r : R) :
  0 < NFW.dr self ->
  NFW.r200_ fl cosmo mean self delta = Some r
  \/ NFW.r500_ fl cosmo mean self delta = Some r
  \/ NFW.r200m_ fl cosmo mean self delta = Some r
  \/ NFW.r500m_ fl cosmo mean self delta = Some r ->
  (exists k : nat, (1 <= k)%nat /\ r = INR k * NFW.dr self)
  /\ NFW.dr self <= r < 2 * NFW.rvir cosmo self * (1 + 2 * np.tol).
Proof.
  intros Hdr Hret.
  assert (Hin : In r (np.arange fl (NFW.dr self) (2 * NFW.rvir cosmo self)
                                (NFW.dr self))).
  { unfold NFW.r200_, NFW.r500_, NFW.r200m_, NFW.r500m_ in Hret.
    destruct Hret as [H|[H|[H|H]]]; exact (nth_error_In _ _ H). }
  destruct (grid_facts.arange_multiples _ _ _ _ Hin) as [k [[Hk _] Heq]].
  pose proof (NFW_facts.rvir_pos cosmo self) as Hrv.
  split; [exists k; now split|]. split.
  - rewrite Heq. apply le_INR in Hk. simpl in Hk. nra.
  - apply (grid_facts.arange_near_stop fl _ (NFW.dr self)); [exact Hdr|lra|].
    exact Hin.
Qed.

(** ** More on the overdensity search *)

Module overdensity_more.
Import np_facts searchsorted_facts overdensity.

Section WithCosmology.

Context (fl : np.rounding) (cosmo : Cosmology) (self : NFW.t).

Hypothesis cvir_pos : 0 < NFW.cvir self.
Hypothesis rho_scale_pos : 0 < NFW.rho_scale self.
Hypothesis crit_pos : 0 < critical_density cosmo (NFW.z self).
Hypothesis dr_pos : 0 < NFW.dr self.

Let rs : list R := NFW.search_rs fl cosmo self.
Let mean : R -> R := NFW.mean_enclosed_rho2rhocrit cosmo self.

(** What the four methods read for a threshold [thr]. *)
Let search (thr : R) : option R :=
  nth_error rs (np.searchsorted (np.neg (map mean rs)) (- thr)).

Lemma search_is_first (thr : R) : search thr = first_at_or_below mean thr rs.
Proof.
  apply search_first.
  apply mean_decreasing_on_grid; assumption.
Qed.

Lemma search_sound (thr r : R) :
  search thr = Some r ->
  In r rs /\ mean r <= thr
  /\ forall r', In r' rs -> r' < r -> thr < mean r'.
Proof.
  intros Hs. split; [exact (nth_error_In _ _ Hs)|]. split.
  - rewrite search_is_first in Hs. unfold first_at_or_below in Hs.
    apply find_some in Hs. destruct Hs as [_ Hp].
    destruct (Rle_dec (mean r) thr); [assumption|discriminate].
  - intros r' Hin Hlt.
    destruct (search_rs_earlier fl cosmo self _ r r' dr_pos Hs Hin Hlt)
      as [i [Hi <-]].
    apply search_earlier_above; [|exact Hi].
    apply mean_decreasing_on_grid; assumption.
Qed.

Lemma search_complete (thr : R) :
  (exists r, In r rs /\ mean r <= thr) -> exists r, search thr = Some r.
Proof.
  intros Hex. rewrite search_is_first.
  destruct (first_at_or_below_Some mean thr rs Hex) as [r [Hr _]].
  now exists r.
Qed.

(** A higher threshold is met at a radius that is not further out. *)
Lemma search_monotone (thr1 thr2 r1 : R) :
  thr1 <= thr2 -> search thr1 = Some r1 ->
  exists r2, search thr2 = Some r2 /\ r2 <= r1.
Proof.
  intros Hle H1.
  destruct (search_sound thr1 r1 H1) as [Hin1 [Hm1 _]].
  destruct (search_complete thr2) as [r2 H2].
  { exists r1. split; [exact Hin1|lra]. }
  exists r2. split; [exact H2|].
  destruct (search_sound thr2 r2 H2) as [_ [_ Hfirst]].
  destruct (Rle_lt_dec r2 r1) as [|Hlt]; [assumption|].
  specialize (Hfirst r1 Hin1 Hlt). lra.
Qed.

End WithCosmology.

(** The sample halo: its first grid radius is [dr], so every threshold at or
    above the mean enclosed density at [dr] is met. *)
Lemma coarse_halo_search (thr : R) :
  NFW.mean_enclosed_rho2rhocrit Planck15_z0 coarse_halo (NFW.dr coarse_halo)
  <= thr ->
  exists r,
    nth_error (NFW.search_rs np.ideal Planck15_z0 coarse_halo)
      (np.searchsorted
         (np.neg (map (NFW.mean_enclosed_rho2rhocrit Planck15_z0 coarse_halo)
                      (NFW.search_rs np.ideal Planck15_z0 coarse_halo)))
         (- thr)) = Some r.
Proof.
  intros Hthr.
  destruct init_facts.coarse_halo_physical as [_ [Hc [Hcrit _]]].
  apply (search_complete np.ideal Planck15_z0 coarse_halo Hc
           init_facts.coarse_halo_rho_scale_pos Hcrit
           init_facts.coarse_halo_dr_pos).
  exists (NFW.dr coarse_halo). split; [|exact Hthr].
  apply (search_rs_head np.ideal Planck15_z0 coarse_halo).
  rewrite init_facts.coarse_halo_search_quotient. lra.
Qed.

End overdensity_more.

Lemma overdensity_radius_on_grid_witness :
  exists r : R,
    NFW.r200 np.ideal Planck15_z0 coarse_halo
      (Some (NFW.mean_enclosed_rho2rhocrit Planck15_z0 coarse_halo
               (NFW.dr coarse_halo))) = Some r
    /\ NFW.dr coarse_halo
       <= r < 2 * NFW.rvir Planck15_z0 coarse_halo * (1 + 2 * np.tol).
Proof.
  destruct (overdensity_more.coarse_halo_search _ (Rle_refl _)) as [r Hr].
  exists r. split; [exact Hr|].
  apply (overdensity_radius_on_grid np.ideal Planck15_z0
           (NFW.mean_enclosed_rho2rhocrit Planck15_z0 coarse_halo)
           coarse_halo
           (Some (NFW.mean_enclosed_rho2rhocrit Planck15_z0 coarse_halo
                    (NFW.dr coarse_halo))) r).
  - exact init_facts.coarse_halo_dr_pos.
  - left. exact Hr.
Defined.

(** X13: on a physical halo with [Om z <= 1] and [delta >= 0], whenever
    [r200m delta] returns a radius, [r200 delta] returns one too and it is
    not larger. *)
Theorem r200_within_r200m (fl : np.rounding) (cosmo : Cosmology) (self : NFW.t) (delta rm : R) :
  NFW.physical cosmo self -> 0 < NFW.rho_scale self -> 0 < NFW.dr self ->
  0 <= delta -> Om cosmo (NFW.z self) <= 1 ->
  NFW.r200m fl cosmo self (Some delta) = Some rm ->
  exists r, NFW.r200 fl cosmo self (Some delta) = Some r /\ r <= rm.
Proof.
  intros [_ [Hc [Hcrit _]]] Hrho Hdr Hdelta HOm Hm.
  unfold NFW.r200m, NFW.r200m_ in Hm. cbn [kwarg] in Hm.
  replace (- delta * Om cosmo (NFW.z self))
    with (- (delta * Om cosmo (NFW.z self))) in Hm by ring.
  apply (overdensity_more.search_monotone fl cosmo self Hc Hrho Hcrit Hdr
           (delta * Om cosmo (NFW.z self)) delta rm); [nra|exact Hm].
Qed.

Lemma r200_within_r200m_witness :
  exists r rm : R,
    NFW.r200m np.ideal Planck15_z0 coarse_halo
      (Some (NFW.mean_enclosed_rho2rhocrit Planck15_z0 coarse_halo
               (NFW.dr coarse_halo) / (3075 / 10000))) = Some rm
    /\ NFW.r200 np.ideal Planck15_z0 coarse_halo
         (Some (NFW.mean_enclosed_rho2rhocrit Planck15_z0 coarse_halo
                  (NFW.dr coarse_halo) / (3075 / 10000))) = Some r
    /\ r <= rm.
Proof.
  destruct init_facts.coarse_halo_physical as [HM [Hc [Hcrit HD]]].
  pose proof (NFW_facts.mean_enclosed_pos Planck15_z0 coarse_halo
                (NFW.dr coarse_halo) Hc
                init_facts.coarse_halo_rho_scale_pos Hcrit
                init_facts.coarse_halo_dr_pos) as Hpos.
  set (m0 := NFW.mean_enclosed_rho2rhocrit Planck15_z0 coarse_halo
               (NFW.dr coarse_halo)) in *.
  destruct (overdensity_more.coarse_halo_search m0 (Rle_refl _))
    as [rm Hrm].
  assert (Hm : NFW.r200m np.ideal Planck15_z0 coarse_halo
                 (Some (m0 / (3075 / 10000))) = Some rm).
  { unfold NFW.r200m, NFW.r200m_. cbn [kwarg].
    replace (- (m0 / (3075 / 10000)) * Om Planck15_z0 (NFW.z coarse_halo))
      with (- m0) by (simpl; field).
    exact Hrm. }
  destruct (r200_within_r200m np.ideal Planck15_z0 coarse_halo
              (m0 / (3075 / 10000)) rm) as [r [Hr Hle]].
  - exact init_facts.coarse_halo_physical.
  - exact init_facts.coarse_halo_rho_scale_pos.
  - exact init_facts.coarse_halo_dr_pos.
  - apply Rlt_le. apply Rdiv_lt_0_compat; lra.
  - simpl. lra.
  - exact Hm.
  - exists r, rm. now repeat split.
Defined.

(** X14: on a physical halo the overdensity radius does not grow with
    [delta]: if [r200 delta1] returns and [delta1 <= delta2] then
    [r200 delta2] returns a radius that is not larger; in particular, with
    the defaults, [r500()] returns whenever [r200()] does and
    [r500() <= r200()]. *)
Theorem overdensity_radius_shrinks_with_delta
        (fl : np.rounding) (cosmo : Cosmology) (self : NFW.t) :
  NFW.physical cosmo self -> 0 < NFW.rho_scale self -> 0 < NFW.dr self ->
  (forall delta1 delta2 r1 : R,
      delta1 <= delta2 ->
      NFW.r200 fl cosmo self (Some delta1) = Some r1 ->
      exists r2, NFW.r200 fl cosmo self (Some delta2) = Some r2 /\ r2 <= r1)
  /\ (forall r200 : R,
         NFW.r200 fl cosmo self None = Some r200 ->
         exists r500, NFW.r500 fl cosmo self None = Some r500 /\ r500 <= r200).
Proof.
  intros [_ [Hc [Hcrit _]]] Hrho Hdr. split.
  - intros delta1 delta2 r1 Hle H1.
    exact (overdensity_more.search_monotone fl cosmo self Hc Hrho Hcrit Hdr
             delta1 delta2 r1 Hle H1).
  - intros r200 H200.
    apply (overdensity_more.search_monotone fl cosmo self Hc Hrho Hcrit Hdr
             200 500 r200); [lra|exact H200].
Qed.

Lemma overdensity_radius_shrinks_with_delta_witness :
  exists r1 r2 : R,
    NFW.r200 np.ideal Planck15_z0 coarse_halo
      (Some (NFW.mean_enclosed_rho2rhocrit Planck15_z0 coarse_halo
               (NFW.dr coarse_halo))) = Some r1
    /\ NFW.r200 np.ideal Planck15_z0 coarse_halo
         (Some (NFW.mean_enclosed_rho2rhocrit Planck15_z0 coarse_halo
                  (NFW.dr coarse_halo) + 1)) = Some r2
    /\ r2 <= r1.
Proof.
  destruct (overdensity_more.coarse_halo_search _ (Rle_refl _)) as [r1 H1].
  destruct (overdensity_radius_shrinks_with_delta np.ideal Planck15_z0 coarse_halo
              init_facts.coarse_halo_physical
              init_facts.coarse_halo_rho_scale_pos
              init_facts.coarse_halo_dr_pos) as [Hmono _].
  destruct (Hmono
              (NFW.mean_enclosed_rho2rhocrit Planck15_z0 coarse_halo
                 (NFW.dr coarse_halo))
              (NFW.mean_enclosed_rho2rhocrit Planck15_z0 coarse_halo
                 (NFW.dr coarse_halo) + 1) r1 ltac:(lra) H1)
    as [r2 [H2 Hle]].
  exists r1, r2. now repeat split.
Defined.



(** X16: on a physical halo, [T200] is [8/27 mp G enclosedMass(r) / r]
    at [r = r200()] (the mean molecular weight is 16/27), and it fails
    when [r200()] finds no radius. *)
Theorem T200_from_mass_and_radius
        (fl : np.rounding) (cosmo : Cosmology) (mp : R) (self : NFW.t) :
  NFW.physical cosmo self -> 0 < NFW.rho_scale self -> 0 < NFW.dr self ->
  0 < G cosmo ->
  NFW.T200 fl cosmo mp self
  = option_map (fun r => 8 / 27 * mp * G cosmo
                         * NFW.enclosedMass cosmo self r / r)
               (NFW.r200 fl cosmo self None)
  /\ (NFW.r200 fl cosmo self None = None -> NFW.T200 fl cosmo mp self = None).
Proof.
  intros [_ [Hc _]] Hrho Hdr HG.
  unfold NFW.T200, NFW.T200_. fold (NFW.r200 fl cosmo self None).
  split.
  - destruct (NFW.r200 fl cosmo self None) as [r|] eqn:Hr; [|reflexivity].
    cbn [option_map]. f_equal.
    assert (Hpos : 0 < r).
    { apply (overdensity.search_rs_pos fl cosmo self r Hdr).
      exact (nth_error_In _ _ Hr). }
    pose proof (slope.vc2_pos cosmo self Hc Hrho HG r Hpos) as Hu.
    fold (NFW.vc cosmo self r).
    replace (NFW.vc cosmo self r ^ 2)
      with (G cosmo * NFW.enclosedMass cosmo self r / r)
      by (unfold NFW.vc, NFW.vc_; cbv zeta; rewrite pow2_sqrt; lra).
    unfold mu, X. field. lra.
  - intros ->. reflexivity.
Qed.

Lemma T200_from_mass_and_radius_witness :
  NFW.T200 np.ideal Planck15_z0 1 coarse_halo
  = option_map (fun r => 8 / 27 * 1 * G Planck15_z0
                         * NFW.enclosedMass Planck15_z0 coarse_halo r / r)
               (NFW.r200 np.ideal Planck15_z0 coarse_halo None).
Proof.
  apply (T200_from_mass_and_radius np.ideal Planck15_z0 1 coarse_halo).
  - exact init_facts.coarse_halo_physical.
  - exact init_facts.coarse_halo_rho_scale_pos.
  - exact init_facts.coarse_halo_dr_pos.
  - simpl. lra.
Defined.

(** ** The concentration relation and the constructor *)

Module init_more.
Import np_facts.

(** A negative power decreases on the positive reals. *)
Lemma Rpower_neg_decreasing (a b c : R) :
  0 < a -> a < b -> c < 0 -> Rpower b c < Rpower a c.
Proof.
  intros Ha Hab Hc. unfold Rpower. apply exp_increasing.
  pose proof (ln_increasing a b Ha Hab). nra.
Qed.

Lemma sum_scal_map {A : Type} (c : R) (w : A -> R) (l : list A) :
  np.sum (map (fun i => c * w i) l) = c * np.sum (map w l).
Proof.
  induction l as [|i l IH]; simpl; [ring|]. rewrite IH. ring.
Qed.

Section Constructed.

Context (fl : np.rounding) (cosmo : Cosmology).

Variables (Mvir z c : R) (_fdr : option R).

Let self : NFW.t := NFW.init fl cosmo Mvir z (Some c) _fdr.
Let f : R := kwarg 100 _fdr.

Hypothesis phys : NFW.physical cosmo self.
Hypothesis f_pos : 0 < f.

(** The weight of grid point [i] in the sum of the constructor, in units of
    [dr^3]: it depends on the resolution only. *)
Let w (i : nat) : R :=
  4 * PI * INR (S i) ^ 2
  * (4 / (INR (S i) / f * (1 + INR (S i) / f) ^ 2)).

Lemma c_pos : 0 < c.
Proof. destruct phys as [_ [Hc _]]. exact Hc. Qed.

(** The number of radii of the grid that the constructor built. *)
Let n : nat := length (NFW.init_rs fl cosmo self).

Lemma init_rs_indexed :
  NFW.init_rs fl cosmo self
  = map (fun i : nat => NFW.dr self * INR (S i)) (seq 0 n).
Proof.
  unfold n, NFW.init_rs, np.arange. rewrite length_map, length_seq.
  apply map_ext. intros i. rewrite S_INR. ring.
Qed.

Lemma integrand_sum_indexed :
  np.sum (NFW.init_integrand cosmo self (NFW.init_rs fl cosmo self))
  = NFW.dr self ^ 3 * np.sum (map w (seq 0 n)).
Proof.
  rewrite init_rs_indexed. unfold NFW.init_integrand.
  rewrite map_map, <- sum_scal_map. f_equal. apply map_ext. intros i.
  pose proof c_pos as Hc.
  pose proof (NFW_facts.r_scale_pos cosmo self Hc) as Hrs.
  unfold NFW.rho2rho_scale, w.
  pose proof (init_facts.init_dr fl cosmo Mvir z (Some c) _fdr) as Hdr.
  fold self in Hdr. rewrite Hdr.
  change (NFW._fdr self) with f.
  set (rs := NFW.r_scale cosmo self) in *.
  assert (Hi : 0 < INR (S i)) by (apply lt_0_INR; lia).
  set (k := INR (S i)) in *.
  assert (0 < k / f) by (apply Rdiv_lt_0_compat; assumption).
  field. repeat split; lra.
Qed.

(** The density scale in closed form: the mass has cancelled and enters
    only through the number of radii of the grid. *)
Lemma rho_scale_closed_form :
  NFW.rho_scale self
  = / (/ (4 / 3 * PI * NFW.Delta_c cosmo self
          * critical_density cosmo (NFW.z self))
       * / (c * f) ^ 3
       * np.sum (map w (seq 0 n))).
Proof.
  pose proof (init_facts.init_rho_scale fl cosmo Mvir z (Some c) _fdr) as Hrho.
  fold self in Hrho. rewrite Hrho, integrand_sum_indexed.
  pose proof (init_facts.init_dr fl cosmo Mvir z (Some c) _fdr) as Hdr.
  fold self in Hdr. rewrite Hdr. unfold NFW.r_scale.
  change (NFW._fdr self) with f. change (NFW.cvir self) with c.
  pose proof c_pos as Hc.
  replace ((NFW.rvir cosmo self / c / f) ^ 3)
    with (NFW.rvir cosmo self ^ 3 * / (c * f) ^ 3) by (field; lra).
  rewrite (NFW_more.rvir_cubed cosmo self phys).
  change (NFW.Mvir self) with Mvir.
  assert (HM : Mvir <> 0).
  { destruct phys as [HM _]. change (NFW.Mvir self) with Mvir in HM. lra. }
  set (d := 4 / 3 * PI * NFW.Delta_c cosmo self
            * critical_density cosmo (NFW.z self)).
  set (W := np.sum _).
  unfold Rdiv.
  replace (Mvir * / d * / (c * f) ^ 3 * W)
    with (Mvir * (/ d * / (c * f) ^ 3 * W)) by ring.
  rewrite Rinv_mult, <- Rmult_assoc, Rinv_r by exact HM. ring.
Qed.

End Constructed.

End init_more.

(** X17: for a given concentration, redshift and resolution, the density
    scale stored by the constructor depends on the virial mass only through
    the number of radii of the grid: two halos whose constructor grids have
    the same number of radii store the same [rho_scale]. *)
Theorem rho_scale_same_for_equal_grids
        (fl : np.rounding) (cosmo : Cosmology) (M1 M2 z c : R)
        (_fdr : option R) :
  0 < M1 -> 0 < M2 -> 0 < c -> 0 < kwarg 100 _fdr ->
  0 < critical_density cosmo z ->
  0 < NFW.Delta_c cosmo (NFW.init fl cosmo M1 z (Some c) _fdr) ->
  length (NFW.init_rs fl cosmo (NFW.init fl cosmo M1 z (Some c) _fdr))
  = length (NFW.init_rs fl cosmo (NFW.init fl cosmo M2 z (Some c) _fdr)) ->
  NFW.rho_scale (NFW.init fl cosmo M1 z (Some c) _fdr)
  = NFW.rho_scale (NFW.init fl cosmo M2 z (Some c) _fdr).
Proof.
  intros H1 H2 Hc Hf Hcrit HD Hlen.
  assert (P1 : NFW.physical cosmo (NFW.init fl cosmo M1 z (Some c) _fdr))
    by (repeat split; assumption).
  assert (P2 : NFW.physical cosmo (NFW.init fl cosmo M2 z (Some c) _fdr))
    by (repeat split; assumption).
  rewrite (init_more.rho_scale_closed_form fl cosmo M1 z c _fdr P1 Hf).
  rewrite (init_more.rho_scale_closed_form fl cosmo M2 z c _fdr P2 Hf).
  rewrite Hlen. reflexivity.
Qed.

Lemma rho_scale_same_for_equal_grids_witness :
  NFW.rho_scale coarse_halo
  = NFW.rho_scale (NFW.init np.ideal Planck15_z0 1 0 (Some 2) (Some 1)).
Proof.
  apply (rho_scale_same_for_equal_grids np.ideal Planck15_z0 1000000000000 1
           0 2 (Some 1)); try (simpl; lra).
  - apply init_facts.Planck15_z0_Delta_c_pos.
  - unfold NFW.init_rs. rewrite !np_facts.arange_length.
    rewrite !np_facts.quotient_ideal.
    rewrite (init_facts.init_rs_steps np.ideal Planck15_z0 1000000000000 0
               (Some 2) (Some 1)) by (simpl; lra).
    rewrite (init_facts.init_rs_steps np.ideal Planck15_z0 1 0
               (Some 2) (Some 1)) by (simpl; lra).
    reflexivity.
Defined.

(** X18: the concentration computed when [cvir] is omitted is positive,
    strictly decreases with the virial mass and with the redshift, and is
    7.85 at [Mvir * h0 = 2e12] and [z = 0]. *)
Theorem Duffy_concentration
        (fl : np.rounding) (cosmo : Cosmology) (M1 M2 z1 z2 : R) (_fdr : option R) :
  0 < H0 cosmo -> 0 < M1 -> M1 < M2 -> -1 < z1 -> z1 < z2 ->
  let cvir := fun M z => NFW.cvir (NFW.init fl cosmo M z None _fdr) in
  0 < cvir M1 z1
  /\ cvir M2 z1 < cvir M1 z1
  /\ cvir M1 z2 < cvir M1 z1
  /\ cvir (2 * 10 ^ 12 / h0 cosmo) 0 = 785 / 100.
Proof.
  intros HH HM1 HM12 Hz1 Hz12 cvir. unfold cvir.
  cbn [NFW.cvir NFW.init].
  assert (Hh : 0 < h0 cosmo) by (unfold h0; lra).
  assert (H10 : 0 < 2 * 10 ^ 12) by (apply Rmult_lt_0_compat; [lra|apply pow_lt; lra]).
  assert (Hq : forall M, 0 < M -> 0 < M / (2 * 10 ^ 12) / 1 * h0 cosmo).
  { intros M HM. apply Rmult_lt_0_compat; [|exact Hh].
    apply Rdiv_lt_0_compat; [|lra]. apply Rdiv_lt_0_compat; assumption. }
  assert (Hp : forall x y, 0 < Rpower x y) by (intros; apply exp_pos).
  split; [|split; [|split]].
  - pose proof (Hp (M1 / (2 * 10 ^ 12) / 1 * h0 cosmo) (- (81 / 1000))).
    pose proof (Hp (1 + z1) (- (71 / 100))).
    apply Rmult_lt_0_compat; [|assumption].
    apply Rmult_lt_0_compat; [lra|assumption].
  - apply Rmult_lt_compat_r; [apply Hp|].
    apply Rmult_lt_compat_l; [lra|].
    apply init_more.Rpower_neg_decreasing; [now apply Hq| |lra].
    apply Rmult_lt_compat_r; [exact Hh|].
    apply Rmult_lt_compat_r; [lra|].
    apply Rmult_lt_compat_r; [apply Rinv_0_lt_compat; exact H10|exact HM12].
  - apply Rmult_lt_compat_l.
    + apply Rmult_lt_0_compat; [lra|apply Hp].
    + apply init_more.Rpower_neg_decreasing; lra.
  - replace (2 * 10 ^ 12 / h0 cosmo / (2 * 10 ^ 12) / 1 * h0 cosmo) with 1
      by (field; lra).
    replace (1 + 0) with 1 by ring.
    unfold Rpower. rewrite ln_1, !Rmult_0_r, exp_0. ring.
Qed.

Lemma Duffy_concentration_witness :
  NFW.cvir (NFW.init np.ideal Planck15_z0 2000000000000 0 None None)
  < NFW.cvir (NFW.init np.ideal Planck15_z0 1000000000000 0 None None).
Proof.
  apply (Duffy_concentration np.ideal Planck15_z0 1000000000000 2000000000000 0 1
           None); simpl; lra.
Defined.



(** X20: a halo constructed from physical inputs with
    [cvir * _fdr > 1], and whose constructor grid is not empty, has
    [0 < dr < rvir], [r_scale > 0] and [rho_scale > 0]; its density,
    enclosed mass and mean enclosed density are positive at every
    [r > 0]. *)
Theorem init_establishes_positive_scales
        (fl : np.rounding) (cosmo : Cosmology) (Mvir z : R)
        (cvir _fdr : option R) :
  let self := NFW.init fl cosmo Mvir z cvir _fdr in
  NFW.physical cosmo self -> 0 < NFW._fdr self ->
  1 < NFW.cvir self * NFW._fdr self ->
  NFW.init_rs fl cosmo self <> [] ->
  0 < NFW.dr self < NFW.rvir cosmo self
  /\ 0 < NFW.r_scale cosmo self
  /\ 0 < NFW.rho_scale self
  /\ forall r : R,
       0 < r ->
       0 < NFW.rho cosmo self r /\ 0 < NFW.enclosedMass cosmo self r
       /\ 0 < NFW.mean_enclosed_rho2rhocrit cosmo self r.
Proof.
  intros self [HM [Hc [Hcrit HD]]] Hf Hcf Hne.
  pose proof (init_facts.init_dr_pos fl cosmo Mvir z cvir _fdr Hc Hf) as Hdr.
  pose proof (init_facts.init_rho_scale_pos fl cosmo Mvir z cvir _fdr Hc Hf
                HM Hne) as Hrho.
  pose proof (init_facts.init_rs_steps fl cosmo Mvir z cvir _fdr Hc Hf)
    as Hsteps.
  fold self in Hdr, Hrho, Hsteps.
  split; [split; [exact Hdr|]|split; [|split; [exact Hrho|]]].
  - assert (Hq : 0 < (NFW.rvir cosmo self - NFW.dr self) / NFW.dr self)
      by (rewrite Hsteps; lra).
    assert (Hp : 0 < (NFW.rvir cosmo self - NFW.dr self) / NFW.dr self
                     * NFW.dr self)
      by (apply Rmult_lt_0_compat; assumption).
    replace ((NFW.rvir cosmo self - NFW.dr self) / NFW.dr self * NFW.dr self)
      with (NFW.rvir cosmo self - NFW.dr self) in Hp by (field; lra).
    lra.
  - now apply NFW_facts.r_scale_pos.
  - intros r Hr. split; [|split].
    + unfold NFW.rho. apply Rmult_lt_0_compat; [exact Hrho|].
      now apply NFW_facts.rho2rho_scale_pos.
    + now apply NFW_facts.enclosedMass_pos.
    + now apply NFW_facts.mean_enclosed_pos.
Qed.

Lemma init_establishes_positive_scales_witness :
  0 < NFW.dr coarse_halo < NFW.rvir Planck15_z0 coarse_halo.
Proof.
  apply (init_establishes_positive_scales np.ideal Planck15_z0
           1000000000000 0 (Some 2) (Some 1)).
  - exact init_facts.coarse_halo_physical.
  - simpl. lra.
  - simpl. lra.
  - apply init_facts.init_rs_ideal_nonempty; simpl; lra.
Defined.

(** ** More on the halo with a disk galaxy *)

Module galaxy_more.
Import calculus calculus_more.

(** The mass fraction of an exponential disk inside x scale lengths. *)
Lemma disk_fraction_bounds (x : R) :
  0 < x -> 0 < 1 - exp (- x) * (1 + x) < 1.
Proof.
  intros Hx.
  pose proof (exp_pos (- x)) as He.
  pose proof (exp_ineq1 x ltac:(lra)) as Hexp.
  assert (Hinv : exp (- x) * exp x = 1)
    by (rewrite <- exp_plus; replace (- x + x) with 0 by ring; apply exp_0).
  split; nra.
Qed.

Section WithCosmology.

Context (cosmo : Cosmology) (self : NFW_withGalaxy.t).

Let Rd : R := NFW_withGalaxy.Rd self.
Let Mg : R := NFW_withGalaxy.Mgalaxy self.
Let halo : NFW.t := NFW_withGalaxy.halo self.

Hypothesis Rd_pos : 0 < Rd.

Lemma enclosedMass_galaxy_exp (r : R) :
  NFW_withGalaxy.enclosedMass_galaxy self r
  = (1 - exp (- (r / Rd)) * (1 + r / Rd)) * Mg.
Proof.
  unfold NFW_withGalaxy.enclosedMass_galaxy. cbv zeta.
  rewrite galaxy_facts.e_power. fold Rd Mg. field. lra.
Qed.

Lemma enclosedMass_galaxy_deriv (r : R) :
  derivable_pt_lim (NFW_withGalaxy.enclosedMass_galaxy self) r
                   (Mg * r / Rd ^ 2 * exp (- (r / Rd))).
Proof.
  apply (derivable_pt_lim_ext
           (fun r => (1 - exp (- (r / Rd)) * (1 + r / Rd)) * Mg)).
  { intros t. symmetry. apply enclosedMass_galaxy_exp. }
  assert (Hq : derivable_pt_lim (fun r => r / Rd) r (/ Rd)).
  { eapply deriv_eq.
    - apply (D_div (fun r => r) (fun _ => Rd) r);
        [apply D_id|apply D_const|lra].
    - unfold Rsqr. field. lra. }
  eapply deriv_eq.
  - apply (D_mult (fun r => 1 - exp (- (r / Rd)) * (1 + r / Rd))
                  (fun _ => Mg) r); [|apply D_const].
    apply (D_minus (fun _ => 1)
                   (fun r => exp (- (r / Rd)) * (1 + r / Rd)) r);
      [apply D_const|].
    apply (D_mult (fun r => exp (- (r / Rd))) (fun r => 1 + r / Rd) r).
    + apply (D_exp (fun r => - (r / Rd)) r). apply D_opp. exact Hq.
    + apply (D_plus (fun _ => 1) (fun r => r / Rd) r);
        [apply D_const|exact Hq].
  - field. lra.
Qed.

Hypothesis Mg_pos : 0 < Mg.

Lemma enclosedMass_galaxy_bounds (r : R) :
  0 < r -> 0 < NFW_withGalaxy.enclosedMass_galaxy self r < Mg.
Proof.
  intros Hr. rewrite enclosedMass_galaxy_exp.
  assert (Hx : 0 < r / Rd) by (apply Rdiv_lt_0_compat; assumption).
  pose proof (disk_fraction_bounds _ Hx). nra.
Qed.

(** The derivative of the galaxy's share of vc^2. *)
Lemma vc2_galaxy_deriv (r : R) :
  0 < r ->
  derivable_pt_lim (NFW_withGalaxy.vc2_galaxy cosmo self) r
                   (NFW_withGalaxy.dvc2_glx_dr cosmo self r).
Proof.
  intros Hr. unfold NFW_withGalaxy.vc2_galaxy.
  eapply deriv_eq.
  - apply (D_div
             (fun r => G cosmo * NFW_withGalaxy.enclosedMass_galaxy self r)
             (fun r => r) r); [|apply D_id|lra].
    apply (D_mult (fun _ => G cosmo)
                  (NFW_withGalaxy.enclosedMass_galaxy self) r);
      [apply D_const|apply enclosedMass_galaxy_deriv].
  - rewrite enclosedMass_galaxy_exp.
    unfold NFW_withGalaxy.dvc2_glx_dr. rewrite galaxy_facts.e_power.
    fold Rd Mg.
    replace (- r / Rd) with (- (r / Rd)) by (field; lra).
    set (E := exp (- (r / Rd))).
    unfold Rsqr. field. lra.
Qed.

Hypothesis cvir_pos : 0 < NFW.cvir halo.
Hypothesis rho_scale_pos : 0 < NFW.rho_scale halo.
Hypothesis G_pos : 0 < G cosmo.

Lemma vc2_halo_pos (r : R) :
  0 < r -> 0 < NFW_withGalaxy.vc2_halo cosmo self r.
Proof.
  intros Hr.
  exact (slope.vc2_pos cosmo halo cvir_pos rho_scale_pos G_pos r Hr).
Qed.

Lemma vc2_galaxy_pos (r : R) :
  0 < r -> 0 < NFW_withGalaxy.vc2_galaxy cosmo self r.
Proof.
  intros Hr. unfold NFW_withGalaxy.vc2_galaxy.
  destruct (enclosedMass_galaxy_bounds r Hr) as [Hg _].
  apply Rdiv_lt_0_compat; [|exact Hr].
  apply Rmult_lt_0_compat; assumption.
Qed.

(** The derivative of the halo's share of vc^2, through the halo slope. *)
Lemma vc2_halo_deriv (r : R) :
  0 < r ->
  derivable_pt_lim (NFW_withGalaxy.vc2_halo cosmo self) r
    (2 * NFW_withGalaxy.vc2_halo cosmo self r / r
     * NFW_withGalaxy.A cosmo self r).
Proof.
  intros Hr.
  pose proof (slope.vc_deriv cosmo halo cvir_pos rho_scale_pos G_pos r Hr)
    as Hd.
  apply (derivable_pt_lim_locally_ext
           (fun r => NFW.vc cosmo halo r * NFW.vc cosmo halo r)
           (NFW_withGalaxy.vc2_halo cosmo self) r (r / 2) (r + 1));
    [lra| |].
  - intros t Ht. unfold NFW.vc, NFW.vc_. cbv zeta.
    apply sqrt_sqrt. apply Rlt_le.
    apply (slope.vc2_pos cosmo halo cvir_pos rho_scale_pos G_pos). lra.
  - eapply deriv_eq.
    + apply (D_mult (NFW.vc cosmo halo) (NFW.vc cosmo halo) r);
        exact Hd.
    + unfold NFW_withGalaxy.A. fold halo.
      replace (NFW_withGalaxy.vc2_halo cosmo self r)
        with (NFW.vc cosmo halo r * NFW.vc cosmo halo r).
      * field. lra.
      * unfold NFW.vc, NFW.vc_. cbv zeta. apply sqrt_sqrt. apply Rlt_le.
        now apply vc2_halo_pos.
Qed.

Lemma total_vc_squared (r : R) :
  0 < r ->
  NFW_withGalaxy.vc cosmo self r ^ 2
  = NFW_withGalaxy.vc2_halo cosmo self r
    + NFW_withGalaxy.vc2_galaxy cosmo self r.
Proof.
  intros Hr. pose proof (vc2_halo_pos r Hr). pose proof (vc2_galaxy_pos r Hr).
  unfold NFW_withGalaxy.vc, NFW.vc_. cbv zeta.
  unfold NFW_withGalaxy.enclosedMass. fold halo.
  replace (G cosmo
           * (NFW.enclosedMass cosmo halo r
              + NFW_withGalaxy.enclosedMass_galaxy self r) / r)
    with (NFW_withGalaxy.vc2_halo cosmo self r
          + NFW_withGalaxy.vc2_galaxy cosmo self r)
    by (unfold NFW_withGalaxy.vc2_halo, NFW_withGalaxy.vc2_galaxy;
        fold halo; field; lra).
  apply pow2_sqrt. lra.
Qed.

Lemma total_vc_pos (r : R) : 0 < r -> 0 < NFW_withGalaxy.vc cosmo self r.
Proof.
  intros Hr. unfold NFW_withGalaxy.vc, NFW.vc_. cbv zeta.
  apply sqrt_lt_R0.
  unfold NFW_withGalaxy.enclosedMass. fold halo.
  pose proof (NFW_facts.enclosedMass_pos cosmo halo r
                cvir_pos rho_scale_pos Hr).
  destruct (enclosedMass_galaxy_bounds r Hr) as [Hg _].
  apply Rdiv_lt_0_compat; [|exact Hr].
  apply Rmult_lt_0_compat; lra.
Qed.

(** The slope returned for one radius. *)
Lemma total_vc_deriv (r : R) :
  0 < r ->
  derivable_pt_lim (NFW_withGalaxy.vc cosmo self) r
    (NFW_withGalaxy.vc cosmo self r / r
     * (NFW_withGalaxy.A cosmo self r * NFW_withGalaxy.AA cosmo self r
        + NFW_withGalaxy.B cosmo self r * NFW_withGalaxy.BB cosmo self r)).
Proof.
  intros Hr.
  pose proof (vc2_halo_pos r Hr) as Hh.
  pose proof (vc2_galaxy_pos r Hr) as Hg.
  pose proof (total_vc_pos r Hr) as Hv.
  pose proof (total_vc_squared r Hr) as Hsq.
  apply (derivable_pt_lim_ext
           (fun r => sqrt (NFW_withGalaxy.vc2_halo cosmo self r
                           + NFW_withGalaxy.vc2_galaxy cosmo self r))).
  { intros t. unfold NFW_withGalaxy.vc, NFW.vc_. cbv zeta. f_equal.
    unfold NFW_withGalaxy.vc2_halo, NFW_withGalaxy.vc2_galaxy,
      NFW_withGalaxy.enclosedMass. unfold Rdiv. ring. }
  eapply deriv_eq.
  - apply (D_sqrt (fun r => NFW_withGalaxy.vc2_halo cosmo self r
                            + NFW_withGalaxy.vc2_galaxy cosmo self r) r);
      [|lra].
    apply (D_plus (NFW_withGalaxy.vc2_halo cosmo self)
                  (NFW_withGalaxy.vc2_galaxy cosmo self) r);
      [now apply vc2_halo_deriv|now apply vc2_galaxy_deriv].
  - unfold NFW_withGalaxy.AA, NFW_withGalaxy.BB, NFW_withGalaxy.B.
    rewrite Hsq.
    assert (Hv' : NFW_withGalaxy.vc cosmo self r
                  = sqrt (NFW_withGalaxy.vc2_halo cosmo self r
                          + NFW_withGalaxy.vc2_galaxy cosmo self r)).
    { rewrite <- Hsq. symmetry. apply sqrt_pow2. lra. }
    rewrite Hv' in *.
    set (h := NFW_withGalaxy.vc2_halo cosmo self r) in *.
    set (g := NFW_withGalaxy.vc2_galaxy cosmo self r) in *.
    set (S := sqrt (h + g)) in *.
    assert (HSS : S * S = h + g) by (apply sqrt_sqrt; lra).
    set (a := NFW_withGalaxy.A cosmo self r).
    set (d := NFW_withGalaxy.dvc2_glx_dr cosmo self r).
    apply (Rmult_eq_reg_r (2 * S)); [|lra].
    transitivity (2 * h / r * a + d); [field; lra|].
    transitivity ((S * S) / r * (a * (h / (h + g))
                                + 1 / 2 * r * d / g * (g / (h + g))) * 2);
      [|field; repeat split; lra].
    rewrite HSS. field. repeat split; lra.
Qed.

End WithCosmology.

End galaxy_more.

(** X21: for [Rd > 0] and [Mgalaxy > 0], [enclosedMass_galaxy] is 0 at
    the centre, positive and strictly increasing on [r > 0], and stays
    strictly below [Mgalaxy]. *)
Theorem enclosedMass_galaxy_profile
        (self : NFW_withGalaxy.t) (r1 r2 : R) :
  0 < NFW_withGalaxy.Rd self -> 0 < NFW_withGalaxy.Mgalaxy self ->
  0 < r1 -> r1 < r2 ->
  NFW_withGalaxy.enclosedMass_galaxy self 0 = 0
  /\ 0 < NFW_withGalaxy.enclosedMass_galaxy self r1
  /\ NFW_withGalaxy.enclosedMass_galaxy self r1
     < NFW_withGalaxy.enclosedMass_galaxy self r2
  /\ NFW_withGalaxy.enclosedMass_galaxy self r2
     < NFW_withGalaxy.Mgalaxy self.
Proof.
  intros HRd HMg Hr1 Hlt.
  split; [|split; [|split]].
  - rewrite (galaxy_more.enclosedMass_galaxy_exp self HRd).
    unfold Rdiv. rewrite Rmult_0_l, Ropp_0, exp_0. ring.
  - now apply galaxy_more.enclosedMass_galaxy_bounds.
  - destruct (MVT_cor2 (NFW_withGalaxy.enclosedMass_galaxy self)
                (fun r => NFW_withGalaxy.Mgalaxy self * r
                          / NFW_withGalaxy.Rd self ^ 2
                          * exp (- (r / NFW_withGalaxy.Rd self)))
                r1 r2 Hlt) as [c [Heq Hc]].
    + intros c _. now apply galaxy_more.enclosedMass_galaxy_deriv.
    + assert (Hpos : 0 < NFW_withGalaxy.Mgalaxy self * c
                         / NFW_withGalaxy.Rd self ^ 2
                         * exp (- (c / NFW_withGalaxy.Rd self))).
      { apply Rmult_lt_0_compat; [|apply exp_pos].
        apply Rdiv_lt_0_compat; [|apply pow_lt; exact HRd].
        apply Rmult_lt_0_compat; lra. }
      nra.
  - apply galaxy_more.enclosedMass_galaxy_bounds; [assumption..|lra].
Qed.

Lemma enclosedMass_galaxy_profile_witness :
  NFW_withGalaxy.enclosedMass_galaxy coarse_halo_with_galaxy 1
  < NFW_withGalaxy.enclosedMass_galaxy coarse_halo_with_galaxy 2.
Proof.
  apply (enclosedMass_galaxy_profile coarse_halo_with_galaxy 1 2);
    simpl; lra.
Defined.

(** X22: for [Rd > 0] and [r > 0], the quantity [dvc2_glx_dr] computed in
    [dlnvc_dlnR] is the derivative of the galaxy's share
    [G enclosedMass_galaxy(r) / r] of [vc^2]. *)
Theorem dvc2_glx_dr_is_derivative
        (cosmo : Cosmology) (self : NFW_withGalaxy.t) (r : R) :
  0 < NFW_withGalaxy.Rd self -> 0 < r ->
  derivable_pt_lim (NFW_withGalaxy.vc2_galaxy cosmo self) r
                   (NFW_withGalaxy.dvc2_glx_dr cosmo self r).
Proof. intros HRd Hr. now apply galaxy_more.vc2_galaxy_deriv. Qed.

Lemma dvc2_glx_dr_is_derivative_witness :
  derivable_pt_lim
    (NFW_withGalaxy.vc2_galaxy Planck15_z0 coarse_halo_with_galaxy) 1
    (NFW_withGalaxy.dvc2_glx_dr Planck15_z0 coarse_halo_with_galaxy 1).
Proof.
  apply (dvc2_glx_dr_is_derivative Planck15_z0 coarse_halo_with_galaxy 1);
    simpl; lra.
Defined.

(** X23: on a physical halo with a galaxy ([Rd], [Mgalaxy], [G]
    positive) and for [r > 0], the value [A*AA + B*BB] that [dlnvc_dlnR]
    computes for a radius is the derivative of [ln vc] with respect to
    [ln r] for the total circular velocity; the weights [AA] and [BB] are
    positive and sum to 1. *)
Theorem galaxy_slope_is_logarithmic_derivative
        (cosmo : Cosmology) (self : NFW_withGalaxy.t) (r : R) :
  let halo := NFW_withGalaxy.halo self in
  NFW.physical cosmo halo -> 0 < NFW.rho_scale halo -> 0 < G cosmo ->
  0 < NFW_withGalaxy.Rd self -> 0 < NFW_withGalaxy.Mgalaxy self ->
  0 < r ->
  let slope := NFW_withGalaxy.A cosmo self r * NFW_withGalaxy.AA cosmo self r
               + NFW_withGalaxy.B cosmo self r
                 * NFW_withGalaxy.BB cosmo self r in
  derivable_pt_lim (fun u => ln (NFW_withGalaxy.vc cosmo self (exp u)))
                   (ln r) slope
  /\ NFW_withGalaxy.AA cosmo self r + NFW_withGalaxy.BB cosmo self r = 1
  /\ 0 < NFW_withGalaxy.AA cosmo self r
  /\ 0 < NFW_withGalaxy.BB cosmo self r.
Proof.
  intros halo [_ [Hc _]] Hrho HG HRd HMg Hr slope.
  pose proof (galaxy_more.vc2_halo_pos cosmo self Hc Hrho HG r Hr) as Hh.
  pose proof (galaxy_more.vc2_galaxy_pos cosmo self HRd HMg HG r Hr) as Hg.
  pose proof (galaxy_more.total_vc_squared cosmo self HRd HMg Hc Hrho HG r Hr)
    as Hsq.
  split; [|split; [|split]].
  - apply calculus_more.log_slope.
    + exact Hr.
    + now apply galaxy_more.total_vc_pos.
    + now apply galaxy_more.total_vc_deriv.
  - unfold NFW_withGalaxy.AA, NFW_withGalaxy.BB. rewrite Hsq. field. lra.
  - unfold NFW_withGalaxy.AA. rewrite Hsq. apply Rdiv_lt_0_compat; lra.
  - unfold NFW_withGalaxy.BB. rewrite Hsq. apply Rdiv_lt_0_compat; lra.
Qed.

Lemma galaxy_slope_is_logarithmic_derivative_witness :
  NFW_withGalaxy.AA Planck15_z0 coarse_halo_with_galaxy 1
  + NFW_withGalaxy.BB Planck15_z0 coarse_halo_with_galaxy 1 = 1.
Proof.
  apply (galaxy_slope_is_logarithmic_derivative Planck15_z0
           coarse_halo_with_galaxy 1).
  - exact init_facts.coarse_halo_physical.
  - exact init_facts.coarse_halo_rho_scale_pos.
  - simpl. lra.
  - simpl. lra.
  - simpl. lra.
  - lra.
Defined.

(** X24: for a halo with galaxy ([cvir > 0], [Rd > 0]) and [r > 0], the
    derivative of the total [Phi] is [g r = G enclosedMass(r) / r^2] with the
    total enclosed mass. *)
Theorem galaxy_Phi_gradient_is_g
        (cosmo : Cosmology) (self : NFW_withGalaxy.t) (r : R) :
  0 < NFW.cvir (NFW_withGalaxy.halo self) ->
  0 < NFW_withGalaxy.Rd self -> 0 < r ->
  derivable_pt_lim (NFW_withGalaxy.Phi cosmo self) r
                   (NFW_withGalaxy.g cosmo self r)
  /\ NFW_withGalaxy.g cosmo self r
     = G cosmo * NFW_withGalaxy.enclosedMass cosmo self r / r ^ 2.
Proof.
  intros Hc HRd Hr. split; [|reflexivity].
  set (Rd := NFW_withGalaxy.Rd self) in *.
  set (Mg := NFW_withGalaxy.Mgalaxy self).
  apply (derivable_pt_lim_ext
           (fun r => NFW.Phi cosmo (NFW_withGalaxy.halo self) r
                     + G cosmo * Mg * (exp (- (r / Rd)) - 1) / r)).
  { intros t. unfold NFW_withGalaxy.Phi.
    now rewrite galaxy_facts.e_power. }
  eapply calculus.deriv_eq.
  - apply (calculus.D_plus (NFW.Phi cosmo (NFW_withGalaxy.halo self))
             (fun r => G cosmo * Mg * (exp (- (r / Rd)) - 1) / r) r).
    + now apply NFW_more.nfw_Phi_deriv.
    + apply (calculus.D_div
               (fun r => G cosmo * Mg * (exp (- (r / Rd)) - 1))
               (fun r => r) r); [|apply calculus.D_id|lra].
      apply (calculus.D_mult (fun _ => G cosmo * Mg)
               (fun r => exp (- (r / Rd)) - 1) r);
        [apply calculus.D_const|].
      apply (calculus.D_minus (fun r => exp (- (r / Rd))) (fun _ => 1) r);
        [|apply calculus.D_const].
      apply (calculus_more.D_exp (fun r => - (r / Rd)) r).
      apply calculus.D_opp.
      apply (calculus.D_div (fun r => r) (fun _ => Rd) r);
        [apply calculus.D_id|apply calculus.D_const|lra].
  - unfold NFW_withGalaxy.g, NFW.g, NFW.g_, NFW_withGalaxy.enclosedMass.
    cbv zeta.
    rewrite (galaxy_more.enclosedMass_galaxy_exp self HRd).
    fold Rd Mg. set (E := exp (- (r / Rd))).
    set (Mh := NFW.enclosedMass cosmo (NFW_withGalaxy.halo self) r).
    unfold Rsqr. field. lra.
Qed.

Lemma galaxy_Phi_gradient_is_g_witness :
  derivable_pt_lim (NFW_withGalaxy.Phi Planck15_z0 coarse_halo_with_galaxy) 1
                   (NFW_withGalaxy.g Planck15_z0 coarse_halo_with_galaxy 1).
Proof.
  apply (galaxy_Phi_gradient_is_g Planck15_z0 coarse_halo_with_galaxy 1);
    simpl; lra.
Defined.

(** X25: on an array of radii, [dlnvc_dlnR] raises when the array has at
    most 20 entries; with 21 entries or more it prints exactly one line of
    six values and returns the slope [A*AA + B*BB] of each radius, in
    order. *)
Theorem dlnvc_dlnR_on_arrays
        (cosmo : Cosmology) (self : NFW_withGalaxy.t) (xs : list R) :
  ((length xs <= 20)%nat ->
   NFW_withGalaxy.dlnvc_dlnR cosmo self (np.Array xs)
   = NFW_withGalaxy.Raises)
  /\ ((20 < length xs)%nat ->
      exists printed : NFW_withGalaxy.line,
        length printed = 6%nat
        /\ NFW_withGalaxy.dlnvc_dlnR cosmo self (np.Array xs)
           = NFW_withGalaxy.Returns [printed]
               (np.Array
                  (map (fun r =>
                          NFW_withGalaxy.A cosmo self r
                          * NFW_withGalaxy.AA cosmo self r
                          + NFW_withGalaxy.B cosmo self r
                            * NFW_withGalaxy.BB cosmo self r) xs))).
Proof.
  split; intros Hlen.
  - unfold NFW_withGalaxy.dlnvc_dlnR. cbn [np.broadcast np.getitem].
    assert (Hnone : nth_error
                      (map (NFW_withGalaxy.vc2_halo cosmo self) xs) 20
                    = None)
      by (apply nth_error_None; rewrite length_map; lia).
    now rewrite Hnone.
  - destruct (nth_error xs 20) as [x|] eqn:Hx.
    + unfold NFW_withGalaxy.dlnvc_dlnR. cbn [np.broadcast np.getitem].
      rewrite !nth_error_map, Hx. cbn [option_map].
      eexists. split; [|reflexivity]. reflexivity.
    + apply nth_error_None in Hx. lia.
Qed.

Lemma dlnvc_dlnR_on_arrays_witness :
  NFW_withGalaxy.dlnvc_dlnR Planck15_z0 coarse_halo_with_galaxy
    (np.Array [1; 2; 3]) = NFW_withGalaxy.Raises.
Proof.
  apply (dlnvc_dlnR_on_arrays Planck15_z0 coarse_halo_with_galaxy [1; 2; 3]).
  simpl. lia.
Defined.

(** X26: [T200] of a halo with galaxy is evaluated at the halo-only
    [r200()] with the total circular velocity: it fails exactly when [T200]
    of the underlying halo fails and is strictly higher otherwise. *)
Theorem T200_with_galaxy_is_higher
        (fl : np.rounding) (cosmo : Cosmology) (mp : R) (self : NFW_withGalaxy.t) :
  let halo := NFW_withGalaxy.halo self in
  NFW.physical cosmo halo -> 0 < NFW.rho_scale halo -> 0 < NFW.dr halo ->
  0 < G cosmo -> 0 < mp ->
  0 < NFW_withGalaxy.Rd self -> 0 < NFW_withGalaxy.Mgalaxy self ->
  match NFW.T200 fl cosmo mp halo, NFW_withGalaxy.T200 fl cosmo mp self with
  | Some T_halo, Some T_total => T_halo < T_total
  | None, None => True
  | _, _ => False
  end.
Proof.
  intros halo [_ [Hc _]] Hrho Hdr HG Hmp HRd HMg.
  unfold NFW.T200, NFW_withGalaxy.T200, NFW.T200_.
  change (NFW.r200_ fl cosmo
            (NFW_withGalaxy.mean_enclosed_rho2rhocrit cosmo self)
            (NFW_withGalaxy.halo self) None)
    with (NFW.r200_ fl cosmo (NFW.mean_enclosed_rho2rhocrit cosmo halo)
            halo None).
  destruct (NFW.r200_ fl cosmo (NFW.mean_enclosed_rho2rhocrit cosmo halo)
              halo None) as [r|] eqn:Hr; cbn [option_map]; [|exact I].
  assert (Hpos : 0 < r).
  { apply (overdensity.search_rs_pos fl cosmo halo r Hdr).
    exact (nth_error_In _ _ Hr). }
  pose proof (slope.vc_pos cosmo halo Hc Hrho HG r Hpos) as Hvh.
  pose proof (galaxy_more.vc2_galaxy_pos cosmo self HRd HMg HG r Hpos) as Hg.
  pose proof (galaxy_more.total_vc_squared cosmo self HRd HMg Hc Hrho HG r Hpos)
    as Hsq.
  fold (NFW.vc cosmo halo r). fold (NFW_withGalaxy.vc cosmo self r).
  rewrite Hsq.
  assert (Hh : NFW.vc cosmo halo r ^ 2 = NFW_withGalaxy.vc2_halo cosmo self r).
  { unfold NFW.vc, NFW.vc_. cbv zeta. apply pow2_sqrt. apply Rlt_le.
    now apply galaxy_more.vc2_halo_pos. }
  rewrite Hh.
  assert (Hmu : 0 < 1 / 2 * mu * mp).
  { unfold mu, X. apply Rmult_lt_0_compat; [lra|exact Hmp]. }
  nra.
Qed.

Lemma T200_with_galaxy_is_higher_witness :
  match NFW.T200 np.ideal Planck15_z0 1 coarse_halo,
        NFW_withGalaxy.T200 np.ideal Planck15_z0 1 coarse_halo_with_galaxy with
  | Some T_halo, Some T_total => T_halo < T_total
  | None, None => True
  | _, _ => False
  end.
Proof.
  apply (T200_with_galaxy_is_higher np.ideal Planck15_z0 1 coarse_halo_with_galaxy).
  - exact init_facts.coarse_halo_physical.
  - exact init_facts.coarse_halo_rho_scale_pos.
  - exact init_facts.coarse_halo_dr_pos.
  - simpl. lra.
  - lra.
  - simpl. lra.
  - simpl. lra.
Defined.
